(** * syncdirs: a shallow embedding of the directory synchronizer

    The Python sources (ConflictResolver.py, FileOperations.py, Watcher.py,
    SyncManager.py, main.py) are embedded module by module.  File-system
    primitives are modelled as a state [FS] or as observations supplied by
    the environment; paths are strings. *)

From Stdlib Require Import ZArith Lia Ascii String.
From stdpp Require Import base list gmap strings.
From Stdlib Require Import Sorted.

Open Scope Z_scope.

(** Exceptions raised by the code that the model needs to distinguish. *)
Inductive Exn :=
| ValueError (msg : string)
| FileNotFoundError (msg : string)
| EOFError
| IndexError
| OverflowError (msg : string)
| OSError (msg : string).

(** The outcome of [datetime.fromtimestamp(t)] on the platform and in the
    local time zone: [None] when it returns; otherwise the exception it
    raises ([ValueError] for a year outside 1..9999, [OverflowError] for a
    value beyond [time_t], [OSError] when [localtime] fails). *)
Definition FromTimestamp := Z -> option Exn.

(** The exceptions [except (IOError, OSError)] catches: [IOError] is
    [OSError], and [FileNotFoundError] is one of its subclasses. *)
Definition is_oserror (e : Exn) : bool :=
  match e with
  | OSError _ | FileNotFoundError _ => true
  | _ => false
  end.

(** ** ConflictResolver.py *)
Module ConflictResolver.

Inductive ResolutionPolicy := NEWEST_WINS | MANUAL.

(** The part of the operating system the resolver observes:
    [os.path.exists] and [os.path.getmtime]; [datetime.fromtimestamp]; and
    [print(f"Path: {file_path}")], which raises when standard output cannot
    encode the path ([None]: it prints).  The fixed ASCII lines printed by
    [_resolve_manually] are written without error. *)
Record Env := mkEnv {
  path_exists : string -> bool;
  getmtime : string -> Z;
  fromtimestamp : FromTimestamp;
  print_path : string -> option Exn
}.

(** One line of [conflict_resolution.log] per resolution, as written by
    [log_resolution]: files, winner and policy. *)
Record LogEntry := mkLogEntry {
  log_files : list string;
  log_winner : string;
  log_policy : ResolutionPolicy
}.

(** [list.sort(key=lambda x: x[1], reverse=True)]: Python's sort is stable,
    also with [reverse=True] (equal keys keep their original order).  An
    insertion sort that puts a new element after every element whose key is
    at least its own. *)
Fixpoint insert_desc (x : string * Z) (l : list (string * Z)) : list (string * Z) :=
  match l with
  | [] => [x]
  | y :: l' => if snd y <? snd x then x :: y :: l' else y :: insert_desc x l'
  end.

Definition sort_desc (l : list (string * Z)) : list (string * Z) :=
  fold_left (fun acc x => insert_desc x acc) l [].

(** [_resolve_by_timestamp]. *)
Definition _resolve_by_timestamp (env : Env) (conflicting_files : list string)
  : Exn + (string * list string) :=
  let files_with_times := map (fun f => (f, getmtime env f)) conflicting_files in
  match sort_desc files_with_times with
  | [] => inl IndexError
  | (winner, _) :: rest => inr (winner, map fst rest)
  end.

(** The [while True: input(...)] loop of [_resolve_manually]: each input is
    the result of [int(choice)] ([None] for a [ValueError]); an exhausted
    input stream makes [input] raise [EOFError]. *)
Fixpoint read_choice (n : Z) (inputs : list (option Z)) : option Z :=
  match inputs with
  | [] => None
  | Some k :: rest => if (1 <=? k) && (k <=? n) then Some k else read_choice n rest
  | None :: rest => read_choice n rest
  end.


(** The display loop of [_resolve_manually] (lines 64-67): for each
    candidate, its path is printed, then
    [datetime.fromtimestamp(os.path.getmtime(file_path))] is evaluated; the
    first exception raised ends the call. *)
Fixpoint display_candidates (env : Env) (files : list string) : option Exn :=
  match files with
  | [] => None
  | file_path :: rest =>
      match print_path env file_path with
      | Some e => Some e
      | None =>
          match fromtimestamp env (getmtime env file_path) with
          | Some e => Some e
          | None => display_candidates env rest
          end
      end
  end.

(** [_resolve_manually]. *)
Definition _resolve_manually (env : Env) (inputs : list (option Z)) (conflicting_files : list string)
  : Exn + (string * list string) :=
  match display_candidates env conflicting_files with
  | Some e => inl e
  | None =>
  match read_choice (Z.of_nat (length conflicting_files)) inputs with
  | None => inl EOFError
  | Some choice_idx =>
      match conflicting_files !! Z.to_nat (choice_idx - 1) with
      | None => inl IndexError
      | Some winner =>
          inr (winner, filter (fun f => f <> winner) conflicting_files)
      end
  end
  end.

(** [resolve_conflict]: the result and the resolution log after the call. *)
Definition resolve_conflict (policy : ResolutionPolicy) (env : Env)
    (inputs : list (option Z)) (conflicting_files : list string)
    (log : list LogEntry) : (Exn + (string * list string)) * list LogEntry :=
  if (length conflicting_files <? 2)%nat then
    (inl (ValueError "At least two files are required for conflict resolution"), log)
  else if negb (forallb (path_exists env) conflicting_files) then
    (inl (FileNotFoundError "One or more files do not exist"), log)
  else
    let r := match policy with
             | NEWEST_WINS => _resolve_by_timestamp env conflicting_files
             | MANUAL => _resolve_manually env inputs conflicting_files
             end in
    match r with
    | inl e => (inl e, log)
    | inr (winner, losers) =>
        (inr (winner, losers), log ++ [mkLogEntry conflicting_files winner policy])
    end.

(** The winner selected by a left-to-right scan that only replaces the
    current best by a strictly newer file. *)
Definition pick_newer (mt : string -> Z) (best f : string) : string :=
  if mt best <? mt f then f else best.


End ConflictResolver.

(** ** FileOperations.py *)
Module FileOperations.

(** A regular file: its bytes, modification time and permission bits. *)
Record file := mkFile {
  data : list Byte.byte;
  st_mtime : Z;
  st_mode : Z
}.

(** The file system: regular files by path and the set of directories. *)
Record FS := mkFS {
  fs_files : gmap string file;
  fs_dirs : gset string
}.

Definition put_file (p : string) (f : file) (fs : FS) : FS :=
  mkFS (<[p := f]> (fs_files fs)) (fs_dirs fs).

(** [FileOperations.log_level]: [set_log_level] only accepts these two. *)
Inductive LogLevel := basic | debug.

(** [posixpath.dirname]: the part up to the last ['/'], with trailing
    slashes removed unless it consists of slashes only. *)
Fixpoint drop_while_not_slash (cs : list Ascii.ascii) : list Ascii.ascii :=
  match cs with
  | [] => []
  | c :: cs' => if Ascii.eqb c "/"%char then cs else drop_while_not_slash cs'
  end.

Fixpoint drop_slashes (cs : list Ascii.ascii) : list Ascii.ascii :=
  match cs with
  | [] => []
  | c :: cs' => if Ascii.eqb c "/"%char then drop_slashes cs' else cs
  end.

Definition dirname (p : string) : string :=
  let head_rev := drop_while_not_slash (rev (list_ascii_of_string p)) in
  match drop_slashes head_rev with
  | [] => string_of_list_ascii head_rev
  | stripped => string_of_list_ascii (rev stripped)
  end.

(** The directories [os.makedirs(name)] creates besides [name]: every
    ancestor, obtained by iterating [dirname]. *)
Fixpoint parents (fuel : nat) (p : string) : list string :=
  match fuel with
  | O => []
  | S fuel' =>
      let h := dirname p in
      if String.eqb h "" || String.eqb h p then [] else h :: parents fuel' h
  end.

(** Programs over the file system.  Other processes may change the file
    system between any two primitive operations of the program: the
    interference [ext k] is applied before the [k]-th primitive.  [k] also
    serves as the clock for new modification times. *)
Definition M (A : Type) : Type :=
  (nat -> FS -> FS) -> nat -> FS -> nat * FS * (Exn + A).

Definition ret {A} (x : A) : M A := fun _ k fs => (k, fs, inr x).

Definition bind {A B} (m : M A) (f : A -> M B) : M B :=
  fun ext k fs =>
    match m ext k fs with
    | (k', fs', inl e) => (k', fs', inl e)
    | (k', fs', inr x) => f x ext k' fs'
    end.

Notation "'let*' x ':=' m 'in' k" := (bind m (fun x => k))
  (at level 200, x name, m at level 100, k at level 200).

(** One primitive operation on the file system. *)
Definition prim {A} (op : nat -> FS -> FS * (Exn + A)) : M A :=
  fun ext k fs => let '(fs', r) := op k (ext k fs) in (S k, fs', r).

(** [try: ... except (IOError, OSError): return False]; [FileNotFoundError]
    is a subclass of [OSError]. *)
Definition catch_oserror (m : M bool) : M bool :=
  fun ext k fs =>
    match m ext k fs with
    | (k', fs', inl (OSError _)) | (k', fs', inl (FileNotFoundError _)) => (k', fs', inr false)
    | r => r
    end.

Definition os_path_exists (p : string) : M bool :=
  prim (fun _ fs => (fs, inr (bool_decide (is_Some (fs_files fs !! p)) ||
                               bool_decide (p ∈ fs_dirs fs)))).

Definition os_path_getsize (p : string) : M Z :=
  prim (fun _ fs => match fs_files fs !! p with
                    | Some f => (fs, inr (Z.of_nat (length (data f))))
                    | None => if bool_decide (p ∈ fs_dirs fs) then (fs, inr 4096)
                              else (fs, inl (FileNotFoundError p))
                    end).

(** The directories [os.makedirs(name)] ensures: [name] and its ancestors. *)
Definition makedirs_set (name : string) : list string :=
  name :: parents (String.length name) name.

(** [os.makedirs(name, exist_ok=True)]. *)
Definition os_makedirs (name : string) : M unit :=
  prim (fun _ fs =>
    if String.eqb name "" then (fs, inl (FileNotFoundError name))
    else let ds := makedirs_set name in
      if existsb (fun d => bool_decide (is_Some (fs_files fs !! d))) ds
      then (fs, inl (OSError "File exists"))
      else (mkFS (fs_files fs) (fs_dirs fs ∪ list_to_set ds), inr tt)).

(** [open(source, 'rb').read()]. *)
Definition read_all (p : string) : M (list Byte.byte) :=
  prim (fun _ fs => match fs_files fs !! p with
                    | Some f => (fs, inr (data f))
                    | None => (fs, inl (OSError "cannot open for reading"))
                    end).

(** [open(target, 'wb')]: truncates or creates the file; the parent
    directory must exist. *)
Definition open_wb (p : string) : M unit :=
  prim (fun k fs =>
    if bool_decide (p ∈ fs_dirs fs) then (fs, inl (OSError "Is a directory"))
    else let d := dirname p in
      if negb (String.eqb d "") && negb (bool_decide (d ∈ fs_dirs fs))
      then (fs, inl (FileNotFoundError p))
      else let mode := match fs_files fs !! p with Some f => st_mode f | None => 420 end in
        (put_file p (mkFile [] (Z.of_nat k) mode) fs, inr tt)).

(** [dst_file.write(...)]: writes through the open descriptor; if the
    path was removed meanwhile, the bytes go to the unlinked file. *)
Definition write_all (p : string) (bs : list Byte.byte) : M unit :=
  prim (fun k fs => match fs_files fs !! p with
                    | Some f => (put_file p (mkFile bs (Z.of_nat k) (st_mode f)) fs, inr tt)
                    | None => (fs, inr tt)
                    end).

(** [shutil.copystat(source, target)]. *)
Definition copystat (src dst : string) : M unit :=
  prim (fun _ fs => match fs_files fs !! src, fs_files fs !! dst with
                    | Some fs_, Some fd =>
                        (put_file dst (mkFile (data fd) (st_mtime fs_) (st_mode fs_)) fs, inr tt)
                    | _, _ => (fs, inl (OSError "copystat"))
                    end).

(** [FileOperations.copy_file(source, target)]. *)
Definition copy_file (log_level : LogLevel) (source target : string) : M bool :=
  catch_oserror (
    let* src_ok := os_path_exists source in
    if negb src_ok then ret false else
    let* _ := (match log_level with
               | debug => let* _ := os_path_getsize source in ret tt
               | basic => ret tt end) in
    let* _ := os_makedirs (dirname target) in
    let* content := read_all source in
    let* _ := open_wb target in
    let* _ := write_all target content in
    let* tgt_ok := os_path_exists target in
    let* mismatch :=
      (if tgt_ok then
         match log_level with
         | debug =>
             let* target_size := os_path_getsize target in
             let* source_size := os_path_getsize source in
             ret (negb (Z.eqb target_size source_size))
         | basic => ret false
         end
       else ret false) in
    if mismatch then ret false else
    let* _ := copystat source target in
    ret true).



End FileOperations.

(** ** Watcher.py *)
Module Watcher.

(** The change kinds written by [scan_directories]. *)
Inductive ChangeType := created | modified | deleted.

(** An entry of [file_metadata]. *)
Record Metadata := mkMetadata {
  hash : string;
  last_modified : Z
}.

(** One file yielded by [os.walk]: its path and what [os.path.getmtime]
    and [get_file_hash] return for it ([None] when they raise
    [IOError]/[OSError]). *)
Record WalkEntry := mkWalkEntry {
  file_path : string;
  mtime_obs : option Z;
  hash_obs : option string
}.

(** The body of the [for filename in files] loop.  [os.path.getmtime]
    ([mtime_obs]), then the f-string of the debug message, which calls
    [datetime.fromtimestamp] whatever the log level, then [get_file_hash]
    ([hash_obs]); an [IOError]/[OSError] skips the file.  Any other
    exception leaves the loop and is re-raised by the outer handler: the
    result is then that exception and [self.file_metadata] as updated so
    far. *)
Fixpoint scan_files (fromtimestamp : FromTimestamp) (walk : list WalkEntry)
    (changes : gmap string ChangeType) (file_metadata : gmap string Metadata)
    (existing_files : gset string)
  : (Exn * gmap string Metadata) + (gmap string ChangeType * gmap string Metadata * gset string) :=
  match walk with
  | [] => inr (changes, file_metadata, existing_files)
  | e :: walk' =>
      let existing_files := {[ file_path e ]} ∪ existing_files in
      match mtime_obs e with
      | None => scan_files fromtimestamp walk' changes file_metadata existing_files
      | Some current_timestamp =>
          match fromtimestamp current_timestamp with
          | Some err =>
              if is_oserror err
              then scan_files fromtimestamp walk' changes file_metadata existing_files
              else inl (err, file_metadata)
          | None =>
              match hash_obs e with
              | None => scan_files fromtimestamp walk' changes file_metadata existing_files
              | Some current_hash =>
                  match file_metadata !! file_path e with
                  | None =>
                      scan_files fromtimestamp walk' (<[file_path e := created]> changes)
                        (<[file_path e := mkMetadata current_hash current_timestamp]> file_metadata)
                        existing_files
                  | Some old_metadata =>
                      if String.eqb current_hash (hash old_metadata) then
                        scan_files fromtimestamp walk' changes file_metadata existing_files
                      else
                        scan_files fromtimestamp walk' (<[file_path e := modified]> changes)
                          (<[file_path e := mkMetadata current_hash current_timestamp]> file_metadata)
                          existing_files
                  end
              end
          end
      end
  end.

(** [scan_directories]: returns [changes] (or raises) and the new
    [file_metadata].  The deletion loop marks every tracked file that was
    not walked as [deleted] and removes its entry. *)
Definition scan_directories (fromtimestamp : FromTimestamp) (walk : list WalkEntry)
    (file_metadata : gmap string Metadata)
  : (Exn + gmap string ChangeType) * gmap string Metadata :=
  match scan_files fromtimestamp walk ∅ file_metadata ∅ with
  | inl (err, meta) => (inl err, meta)
  | inr (changes, meta, existing_files) =>
      let deleted_files := filter (fun kv => kv.1 ∉ existing_files) meta in
      (inr (changes ∪ ((fun _ => deleted) <$> deleted_files)),
       filter (fun kv => kv.1 ∈ existing_files) meta)
  end.


(** [buf = f.read(4096); while buf: hasher.update(buf); buf = f.read(4096)]:
    the successive buffers read from the rest of the file; [fuel] bounds
    the number of iterations. *)
Fixpoint read_chunks (fuel : nat) (rest : list Byte.byte) : list (list Byte.byte) :=
  match fuel with
  | O => []
  | S fuel' =>
      match take 4096 rest with
      | [] => []
      | buf => buf :: read_chunks fuel' (drop 4096 rest)
      end
  end.


End Watcher.

(** ** FileOperations.py: [validate_file], which uses [Watcher.get_file_hash] *)
Module FileValidation.
Import FileOperations Watcher.


End FileValidation.

(** ** SyncManager.py *)
Module SyncManager.
Import ConflictResolver Watcher.

Definition starts_with_slash (s : string) : bool :=
  match list_ascii_of_string s with
  | c :: _ => Ascii.eqb c "/"%char
  | [] => false
  end.

Definition ends_with_slash (s : string) : bool :=
  match rev (list_ascii_of_string s) with
  | c :: _ => Ascii.eqb c "/"%char
  | [] => false
  end.

(** [posixpath.join(a, b)]: [if b.startswith(sep): path = b;
    elif not path or path.endswith(sep): path += b; else: path += sep + b]. *)
Definition path_join (a b : string) : string :=
  if starts_with_slash b then b
  else if String.eqb a "" || ends_with_slash a then a ++ b
  else a ++ "/" ++ b.

(** The shape of the results of [os.path.abspath], which [main.py] applies
    to every directory: absolute, and without a trailing slash unless it is
    the root. *)
Definition abspath_form (d : string) : bool :=
  starts_with_slash d && (String.eqb d "/" || negb (ends_with_slash d)).

(** The four counters of [sync_stats] and its two timestamps. *)
Record Stats := mkStats {
  files_synced : nat;
  files_deleted : nat;
  conflicts_resolved : nat;
  failed_operations : nat;
  start_time : option Z;
  end_time : option Z
}.

Inductive StatName := s_files_synced | s_files_deleted | s_conflicts_resolved | s_failed_operations.

#[global] Instance StatName_eq_dec : EqDecision StatName.
Proof. solve_decision. Defined.

(** [self.sync_stats[stat_name]]. *)
Definition counter (stat_name : StatName) (st : Stats) : nat :=
  match stat_name with
  | s_files_synced => files_synced st
  | s_files_deleted => files_deleted st
  | s_conflicts_resolved => conflicts_resolved st
  | s_failed_operations => failed_operations st
  end.

(** [_increment_stat]: [with self._stats_lock: self.sync_stats[stat_name] += 1].
    The lock makes the read-modify-write one atomic step. *)
Definition _increment_stat (stat_name : StatName) (st : Stats) : Stats :=
  match stat_name with
  | s_files_synced => mkStats (S (files_synced st)) (files_deleted st)
      (conflicts_resolved st) (failed_operations st) (start_time st) (end_time st)
  | s_files_deleted => mkStats (files_synced st) (S (files_deleted st))
      (conflicts_resolved st) (failed_operations st) (start_time st) (end_time st)
  | s_conflicts_resolved => mkStats (files_synced st) (files_deleted st)
      (S (conflicts_resolved st)) (failed_operations st) (start_time st) (end_time st)
  | s_failed_operations => mkStats (files_synced st) (files_deleted st)
      (conflicts_resolved st) (S (failed_operations st)) (start_time st) (end_time st)
  end.

Definition initial_stats : Stats := mkStats 0 0 0 0 None None.

(** A task submitted to the executor: [_copy_file(source, target)] or
    [_delete_file(target_path, rel_path)]. *)
Inductive Task := CopyTask (src dst : string) | DeleteTask (path : string).

(** What a session observes of the outside world: the resolver's view of
    the file system and the operator's answers, [os.path.exists] in
    [_handle_file_update], and the booleans [FileOperations.copy_file] and
    [FileOperations.delete_file] return for each task (they catch every
    [OSError], so they never raise). *)
Record SessionEnv := mkSessionEnv {
  resolver_env : ConflictResolver.Env;
  operator_inputs : list (option Z);
  copy_result : string -> string -> bool;
  delete_result : string -> bool
}.

Record SyncManager := mkSyncManager {
  source_dir : string;
  target_dirs : list string;
  resolution_policy : ResolutionPolicy
}.

(** The effect of one [_process_change] call: statistics incremented,
    tasks submitted, the conflict log, and the exception it re-raises. *)
Record Processed := mkProcessed {
  p_stats : list StatName;
  p_tasks : list Task;
  p_log : list LogEntry;
  p_exn : option Exn
}.

(** [_handle_file_update]. *)
Definition _handle_file_update (sm : SyncManager) (env : SessionEnv)
    (source_path : string) (target_paths : list string) (log : list LogEntry) : Processed :=
  let existing_targets := filter (fun p => path_exists (resolver_env env) p = true) target_paths in
  match existing_targets with
  | _ :: _ =>
      let conflicting_files := source_path :: existing_targets in
      match resolve_conflict (resolution_policy sm) (resolver_env env)
              (operator_inputs env) conflicting_files log with
      | (inl e, log') => mkProcessed [] [] log' (Some e)
      | (inr (winner, _losers), log') =>
          if String.eqb winner source_path then
            mkProcessed [s_conflicts_resolved]
              (map (fun target_path => CopyTask source_path target_path) target_paths) log' None
          else
            mkProcessed [s_conflicts_resolved]
              (CopyTask winner source_path ::
               map (fun target_path => CopyTask winner target_path)
                 (filter (fun target_path => target_path <> winner) target_paths)) log' None
      end
  | [] =>
      mkProcessed [] (map (fun target_path => CopyTask source_path target_path) target_paths) log None
  end.

(** [_handle_file_deletion]. *)
Definition _handle_file_deletion (target_paths : list string) (log : list LogEntry) : Processed :=
  mkProcessed [] (map DeleteTask target_paths) log None.

(** [_process_change]. *)
Definition _process_change (sm : SyncManager) (env : SessionEnv) (change_type : ChangeType)
    (source_path : string) (target_paths : list string) (log : list LogEntry) : Processed :=
  match change_type with
  | modified | created => _handle_file_update sm env source_path target_paths log
  | deleted => _handle_file_deletion target_paths log
  end.

(** [_copy_file] and [_delete_file]: the statistic a task increments. *)
Definition run_task (env : SessionEnv) (t : Task) : list StatName :=
  match t with
  | CopyTask src dst => if copy_result env src dst then [s_files_synced] else []
  | DeleteTask p => if delete_result env p then [s_files_deleted] else []
  end.

(** The result of a session: the tasks executed, the statistics
    increments in the order applied, the conflict log. *)
Record Session := mkSession {
  executed : list Task;
  stat_trace : list StatName;
  session_log : list LogEntry
}.

(** The loop of [sync_files] over [changes.items()]: one [_process_change]
    future per change, in order. *)
Fixpoint process_all (sm : SyncManager) (env : SessionEnv)
    (changes : list (string * ChangeType)) (log : list LogEntry) : list Processed :=
  match changes with
  | [] => []
  | (rel_path, change_type) :: rest =>
      let source_path := path_join (source_dir sm) rel_path in
      let target_paths := map (fun target_dir => path_join target_dir rel_path) (target_dirs sm) in
      let r := _process_change sm env change_type source_path target_paths log in
      r :: process_all sm env rest (p_log r)
  end.

(** The statistics a processed change contributes: its own increments,
    and one [failed_operations] increment from the [as_completed] loop if
    [future.result()] re-raises its exception. *)
Definition processed_stats (r : Processed) : list StatName :=
  p_stats r ++ (if p_exn r then [s_failed_operations] else []).

Definition submit_changes (sm : SyncManager) (env : SessionEnv)
    (changes : list (string * ChangeType)) (log : list LogEntry)
  : list StatName * list Task * list LogEntry :=
  let rs := process_all sm env changes log in
  (flat_map processed_stats rs, flat_map p_tasks rs, default log (last (map p_log rs))).

Definition apply_stats (trace : list StatName) (st : Stats) : Stats :=
  fold_left (fun st n => _increment_stat n st) trace st.

(** [sync_files]: the executor runs every submitted task before the
    [with] block ends.  Tasks run concurrently; the increments commute, so
    the counters do not depend on the order, and the model runs the
    processing of the changes first and then the file tasks. *)
Definition sync_files (sm : SyncManager) (env : SessionEnv) (now_start now_end : Z)
    (changes : list (string * ChangeType)) (st : Stats) (log : list LogEntry)
  : Session * Stats :=
  let '(stats1, tasks, log') := submit_changes sm env changes log in
  let trace := stats1 ++ flat_map (run_task env) tasks in
  let st0 := mkStats (files_synced st) (files_deleted st) (conflicts_resolved st)
               (failed_operations st) (Some now_start) (end_time st) in
  let st1 := apply_stats trace st0 in
  (mkSession tasks trace log',
   mkStats (files_synced st1) (files_deleted st1) (conflicts_resolved st1)
     (failed_operations st1) (start_time st1) (Some now_end)).

(** Whether a task's [FileOperations] call returned [True]. *)
Definition copy_succeeded (env : SessionEnv) (t : Task) : bool :=
  match t with CopyTask src dst => copy_result env src dst | DeleteTask _ => false end.

Definition delete_succeeded (env : SessionEnv) (t : Task) : bool :=
  match t with DeleteTask p => delete_result env p | CopyTask _ _ => false end.

(** The dictionary returned by [generate_summary_report]. *)
Record Report := mkReport {
  r_start_time : option Z;
  r_end_time : option Z;
  duration_seconds : option Z;
  r_files_synced : nat;
  r_files_deleted : nat;
  r_conflicts_resolved : nat;
  r_failed_operations : nat;
  source_directory : string;
  target_directories : list string
}.

(** [generate_summary_report]: [if start_time and end_time] holds when
    both are set (a [datetime] is always true). *)
Definition generate_summary_report (sm : SyncManager) (st : Stats) : Report :=
  let duration := match start_time st, end_time st with
                  | Some s, Some e => Some (e - s)
                  | _, _ => None
                  end in
  mkReport (start_time st) (end_time st) duration
    (files_synced st) (files_deleted st) (conflicts_resolved st) (failed_operations st)
    (source_dir sm) (target_dirs sm).

End SyncManager.

(** ** main.py: [DirectorySynchronizer] *)
Module DirectorySynchronizer.

(** Program points of one [_watch_directory] loop. *)
Inductive PC :=
| PLoop      (* [while self.running:] *)
| PCheck     (* [with self.sync_condition: while self.is_syncing and self.running: ...] *)
| PWaiting   (* blocked in [self.sync_condition.wait()] *)
| PScan      (* [changes = watcher.scan_directories(directory)], outside the lock *)
| PSet       (* [with self.sync_condition: self.is_syncing = True] *)
| PSync      (* inside [self._handle_changes(...)]: a sync session is running *)
| PClear     (* [finally: self.is_syncing = False], outside the lock *)
| PNotify    (* [with self.sync_condition: self.sync_condition.notify_all()] *)
| PExit.     (* the loop has ended *)

#[global] Instance PC_eq_dec : EqDecision PC.
Proof. solve_decision. Defined.

(** The shared fields [running] and [is_syncing], and one program point
    per watcher thread (one thread per directory). *)
Record World := mkWorld {
  running : bool;
  is_syncing : bool;
  pcs : list PC
}.

Definition set_pc (i : nat) (pc : PC) (w : World) : World :=
  mkWorld (running w) (is_syncing w) (<[i := pc]> (pcs w)).

(** [notify_all]: every thread blocked in [wait()] re-acquires the lock
    and re-tests the [while] condition. *)
Definition wake_all (l : list PC) : list PC :=
  map (fun pc => if decide (pc = PWaiting) then PCheck else pc) l.

(** One atomic step of one watcher thread, or [stop()].  Blocks executed
    under [self.lock] are single steps. *)
Inductive step : World -> World -> Prop :=
| step_loop_enter w i : pcs w !! i = Some PLoop -> running w = true ->
    step w (set_pc i PCheck w)
| step_loop_exit w i : pcs w !! i = Some PLoop -> running w = false ->
    step w (set_pc i PExit w)
| step_check_wait w i : pcs w !! i = Some PCheck ->
    is_syncing w = true -> running w = true ->
    step w (set_pc i PWaiting w)
| step_check_stop w i : pcs w !! i = Some PCheck -> running w = false ->
    step w (set_pc i PExit w)
| step_check_pass w i : pcs w !! i = Some PCheck ->
    is_syncing w = false -> running w = true ->
    step w (set_pc i PScan w)
| step_scan_nochange w i : pcs w !! i = Some PScan ->
    step w (set_pc i PLoop w)
| step_scan_changes w i : pcs w !! i = Some PScan ->
    step w (set_pc i PSet w)
| step_set w i : pcs w !! i = Some PSet ->
    step w (mkWorld (running w) true (<[i := PSync]> (pcs w)))
| step_sync_done w i : pcs w !! i = Some PSync ->
    step w (set_pc i PClear w)
| step_clear w i : pcs w !! i = Some PClear ->
    step w (mkWorld (running w) false (<[i := PNotify]> (pcs w)))
| step_notify w i : pcs w !! i = Some PNotify ->
    step w (mkWorld (running w) (is_syncing w) (wake_all (<[i := PLoop]> (pcs w))))
| step_stop w :
    step w (mkWorld false (is_syncing w) (wake_all (pcs w))).

(** [start()]: [running] is set before the watchers are submitted; each
    watcher starts at the top of its loop. *)
Definition init (n : nat) : World := mkWorld true false (replicate n PLoop).

(** The number of sync sessions running at once. *)
Definition active_sessions (w : World) : nat :=
  length (filter (fun pc => pc = PSync) (pcs w)).

End DirectorySynchronizer.

(** ** Concrete file systems used to evaluate the model *)
Module Scenarios.
Import FileOperations.

(** [datetime.fromtimestamp] in UTC for timestamps whose year [localtime]
    can represent: years 1 to 9999 are the seconds from -62135596800 to
    253402300799; outside them it raises [ValueError] (for 3e11, "year 11476
    is out of range"). *)
Definition utc_fromtimestamp : FromTimestamp :=
  fun t => if (t <? -62135596800) || (253402300799 <? t)
           then Some (ValueError "year is out of range") else None.

(** [/a/f] holds three bytes; directories [/a] and [/b] exist. *)
Definition fs_ab : FS :=
  mkFS (<["/a/f" := mkFile [Byte.x01; Byte.x02; Byte.x03] 7 493]> ∅) (list_to_set ["/a"; "/b"]).

(** Another process appends two bytes to [/a/f] once [/b/f] has received
    content (a user editing the source file while it is copied). *)
Definition edit_source_after_write (k : nat) (fs : FS) : FS :=
  match fs_files fs !! "/b/f" with
  | Some f => if bool_decide (data f = []) then fs
              else put_file "/a/f" (mkFile [Byte.x01; Byte.x02; Byte.x03; Byte.x04; Byte.x05] 9 493) fs
  | None => fs
  end.

Definition no_interference (k : nat) (fs : FS) : FS := fs.

Definition file_size (fs : FS) (p : string) : option nat :=
  length ∘ data <$> fs_files fs !! p.

(** A session from [/a] to [/b] in which no target copy exists and every
    copy and delete fails (e.g. [/b] is read-only). *)
Definition sm_ab : SyncManager.SyncManager :=
  SyncManager.mkSyncManager "/a" ["/b"] ConflictResolver.NEWEST_WINS.

Definition env_io_fails : SyncManager.SessionEnv :=
  SyncManager.mkSessionEnv
    (ConflictResolver.mkEnv (fun p => String.eqb p "/a/f") (fun _ => 0)
       utc_fromtimestamp (fun _ => None))
    [] (fun _ _ => false) (fun _ => false).

(** The same session in which every copy and delete succeeds. *)
Definition env_io_ok : SyncManager.SessionEnv :=
  SyncManager.mkSessionEnv
    (ConflictResolver.mkEnv (fun p => String.eqb p "/a/f") (fun _ => 0)
       utc_fromtimestamp (fun _ => None))
    [] (fun _ _ => true) (fun _ => true).

(** [/a/f] (time 10) and the target copy [/b/f] (time 20) both exist. *)
Definition env_b_newer : SyncManager.SessionEnv :=
  SyncManager.mkSessionEnv
    (ConflictResolver.mkEnv (fun p => String.eqb p "/a/f" || String.eqb p "/b/f")
       (fun p => if String.eqb p "/b/f" then 20 else 10)
       utc_fromtimestamp (fun _ => None))
    [] (fun _ _ => true) (fun _ => true).

End Scenarios.

(* ================================================================== *)
(** * Properties *)
(* ================================================================== *)

Module ConflictResolverFacts.
Import ConflictResolver.

Lemma insert_desc_head (x b : string * Z) (acc : list (string * Z)) :
  head acc = Some b ->
  head (insert_desc x acc) = Some (if snd b <? snd x then x else b).
Proof.
  destruct acc as [|y acc]; simpl; [discriminate|].
  intros [= ->]. by destruct (snd b <? snd x).
Qed.

Lemma sort_desc_fold_head (mt : string -> Z) (l : list string) acc b :
  head acc = Some (b, mt b) ->
  head (fold_left (fun acc x => insert_desc x acc) (map (fun f => (f, mt f)) l) acc)
  = Some (fold_left (pick_newer mt) l b, mt (fold_left (pick_newer mt) l b)).
Proof.
  revert acc b. induction l as [|f l IH]; intros acc b Hb; simpl; [done|].
  apply IH. rewrite (insert_desc_head _ _ _ Hb). simpl.
  unfold pick_newer. by destruct (mt b <? mt f).
Qed.

Lemma sort_desc_head (mt : string -> Z) (f : string) (l : list string) :
  head (sort_desc (map (fun f => (f, mt f)) (f :: l)))
  = Some (fold_left (pick_newer mt) l f, mt (fold_left (pick_newer mt) l f)).
Proof. unfold sort_desc. simpl. by apply sort_desc_fold_head. Qed.

Lemma pick_newer_first_max (mt : string -> Z) (x : string) (rest : list string) :
  exists i, (x :: rest) !! i = Some (fold_left (pick_newer mt) rest x) /\
    forall j c, (x :: rest) !! j = Some c ->
      mt c <= mt (fold_left (pick_newer mt) rest x) /\
      ((j < i)%nat -> mt c < mt (fold_left (pick_newer mt) rest x)).
Proof.
  induction rest as [|y rest IH] using rev_ind.
  - exists 0%nat. split; [done|]. intros j c Hj.
    destruct j; simpl in Hj; [|by rewrite lookup_nil in Hj].
    injection Hj as <-. simpl. split; [lia|]. intros; lia.
  - destruct IH as (i & Hi & Hmax).
    rewrite fold_left_app. simpl.
    set (w := fold_left (pick_newer mt) rest x) in *.
    assert (Hlen : (i < length (x :: rest))%nat) by (eapply lookup_lt_Some; eauto).
    unfold pick_newer. destruct (Z.ltb_spec (mt w) (mt y)) as [Hlt|Hge].
    + exists (length (x :: rest)). split.
      { rewrite app_comm_cons, lookup_app_r by lia.
        by rewrite Nat.sub_diag. }
      intros j c Hj. rewrite app_comm_cons in Hj.
      destruct (decide (j < length (x :: rest))%nat) as [Hj'|Hj'].
      * rewrite lookup_app_l in Hj by done.
        destruct (Hmax j c Hj). split; [lia|]. intros; lia.
      * rewrite lookup_app_r in Hj by lia.
        apply list_lookup_singleton_Some in Hj as [_ <-]. split; [lia|]. intros; lia.
    + exists i. split.
      { rewrite app_comm_cons, lookup_app_l by done. done. }
      intros j c Hj. rewrite app_comm_cons in Hj.
      destruct (decide (j < length (x :: rest))%nat) as [Hj'|Hj'].
      * rewrite lookup_app_l in Hj by done. by apply Hmax.
      * rewrite lookup_app_r in Hj by lia.
        apply list_lookup_singleton_Some in Hj as [_ <-]. split; [lia|]. intros; lia.
Qed.

Lemma resolve_by_timestamp_shape (env : Env) (f : string) (l : list string) :
  exists losers,
    _resolve_by_timestamp env (f :: l) = inr (fold_left (pick_newer (getmtime env)) l f, losers).
Proof.
  unfold _resolve_by_timestamp.
  pose proof (sort_desc_head (getmtime env) f l) as Hh.
  destruct (sort_desc (map (fun f => (f, getmtime env f)) (f :: l))) as [|[w t] rest];
    simpl in Hh; [discriminate|].
  injection Hh as -> _. by eexists.
Qed.

(** Claim C6.  NewestWins resolution ([_resolve_by_timestamp]) on a
    non-empty candidate list returns as winner the candidate with the largest
    modification time, and among candidates sharing that largest time the
    first-listed one: every earlier candidate is strictly older.  The
    result is a function of the candidates and their timestamps. *)
Theorem newest_wins_first_max (env : Env) (conflicting_files : list string) :
  conflicting_files <> [] ->
  exists winner losers i,
    _resolve_by_timestamp env conflicting_files = inr (winner, losers) /\
    conflicting_files !! i = Some winner /\
    (forall j c, conflicting_files !! j = Some c -> getmtime env c <= getmtime env winner) /\
    (forall j c, (j < i)%nat -> conflicting_files !! j = Some c ->
       getmtime env c < getmtime env winner).
Proof.
  destruct conflicting_files as [|f l]; [done|]. intros _.
  destruct (resolve_by_timestamp_shape env f l) as [losers Hr].
  destruct (pick_newer_first_max (getmtime env) f l) as (i & Hi & Hmax).
  exists (fold_left (pick_newer (getmtime env)) l f), losers, i.
  split; [done|]. split; [done|]. split.
  - intros j c Hj. by destruct (Hmax j c Hj).
  - intros j c Hji Hj. by apply (Hmax j c Hj).
Qed.

Lemma newest_wins_first_max_witness :
  let env := mkEnv (fun _ => true) (fun f => if String.eqb f "b" then 30 else 10)
               Scenarios.utc_fromtimestamp (fun _ => None) in
  ["a"; "b"; "c"] <> [] /\
  exists winner losers i,
    _resolve_by_timestamp env ["a"; "b"; "c"] = inr (winner, losers) /\
    ["a"; "b"; "c"] !! i = Some winner /\
    (forall j c, ["a"; "b"; "c"] !! j = Some c -> getmtime env c <= getmtime env winner) /\
    (forall j c, (j < i)%nat -> ["a"; "b"; "c"] !! j = Some c ->
       getmtime env c < getmtime env winner).
Proof.
  intros env. split; [discriminate|].
  apply (newest_wins_first_max env ["a"; "b"; "c"]). discriminate.
Defined.

(** The example of the spec: timestamps [10; 30; 20] select the second
    candidate, and equal timestamps select the first-listed candidate. *)
Example newest_wins_10_30_20 :
  _resolve_by_timestamp
    (mkEnv (fun _ => true)
       (fun f => if String.eqb f "a" then 10 else if String.eqb f "b" then 30 else 20)
       Scenarios.utc_fromtimestamp (fun _ => None))
    ["a"; "b"; "c"] = inr ("b", ["c"; "a"]).
Proof. reflexivity. Qed.

Example newest_wins_tie_first :
  _resolve_by_timestamp (mkEnv (fun _ => true) (fun _ => 5) Scenarios.utc_fromtimestamp (fun _ => None))
    ["x"; "y"] = inr ("x", ["y"]).
Proof. reflexivity. Qed.

Lemma forallb_false_Exists {A} (p : A -> bool) (l : list A) :
  forallb p l = false -> Exists (fun x => p x = false) l.
Proof.
  induction l as [|x l IH]; simpl; [discriminate|].
  destruct (p x) eqn:Hx; simpl; intros H; [right; by apply IH|by left].
Qed.

Lemma insert_desc_perm (x : string * Z) (l : list (string * Z)) : insert_desc x l ≡ₚ x :: l.
Proof.
  induction l as [|y l IH]; simpl; [done|].
  destruct (snd y <? snd x); [done|]. rewrite IH. apply perm_swap.
Qed.

Lemma sort_desc_fold_perm (l acc : list (string * Z)) :
  fold_left (fun acc x => insert_desc x acc) l acc ≡ₚ l ++ acc.
Proof.
  revert acc. induction l as [|x l IH]; intros acc; simpl; [done|].
  rewrite IH, insert_desc_perm. symmetry. apply Permutation_middle.
Qed.

Lemma insert_desc_sorted (x : string * Z) (l : list (string * Z)) :
  Sorted (fun p q => snd q <= snd p) l -> Sorted (fun p q => snd q <= snd p) (insert_desc x l).
Proof.
  induction l as [|y l IH]; intros Hs; simpl; [by repeat constructor|].
  destruct (Z.ltb_spec (snd y) (snd x)).
  - constructor; [done|]. constructor. lia.
  - apply Sorted_inv in Hs as [Hs Hh]. constructor; [by apply IH|].
    destruct l as [|z l]; simpl; [constructor; lia|].
    destruct (snd z <? snd x); constructor; [lia|]. by inversion Hh.
Qed.

Lemma sort_desc_fold_sorted (l acc : list (string * Z)) :
  Sorted (fun p q => snd q <= snd p) acc ->
  Sorted (fun p q => snd q <= snd p) (fold_left (fun acc x => insert_desc x acc) l acc).
Proof.
  revert acc. induction l as [|x l IH]; intros acc Hs; simpl; [done|].
  apply IH. by apply insert_desc_sorted.
Qed.

Lemma sorted_map_fst (mt : string -> Z) (L : list (string * Z)) :
  Forall (fun p => snd p = mt (fst p)) L -> Sorted (fun p q => snd q <= snd p) L ->
  Sorted (fun a b => mt b <= mt a) (map fst L).
Proof.
  intros Hf Hs. induction Hs as [|p L Hs IH Hh]; simpl; constructor.
  - apply IH. by inversion Hf.
  - destruct Hh as [|q L' Hpq]; simpl; constructor.
    inversion Hf as [|? ? Hp Hf']; subst. inversion Hf'; subst. lia.
Qed.

(** The result of [_resolve_by_timestamp]: the candidates reordered. *)
Lemma resolve_by_timestamp_result (env : Env) (conflicting_files : list string) :
  conflicting_files <> [] ->
  exists winner losers,
    _resolve_by_timestamp env conflicting_files = inr (winner, losers) /\
    winner :: losers ≡ₚ conflicting_files /\
    Sorted (fun a b => getmtime env b <= getmtime env a) (winner :: losers).
Proof.
  intros Hne. unfold _resolve_by_timestamp.
  assert (Hp : sort_desc (map (fun f => (f, getmtime env f)) conflicting_files)
               ≡ₚ map (fun f => (f, getmtime env f)) conflicting_files).
  { unfold sort_desc. rewrite sort_desc_fold_perm. by rewrite app_nil_r. }
  assert (Hs : Sorted (fun p q => snd q <= snd p)
                 (sort_desc (map (fun f => (f, getmtime env f)) conflicting_files)))
    by (apply sort_desc_fold_sorted; constructor).
  assert (Hf : Forall (fun p => snd p = getmtime env (fst p))
                 (sort_desc (map (fun f => (f, getmtime env f)) conflicting_files))).
  { rewrite Hp. apply Forall_forall. intros p Hin.
    apply list_elem_of_In, in_map_iff in Hin as (f & <- & _). done. }
  destruct (sort_desc (map (fun f => (f, getmtime env f)) conflicting_files))
    as [|[w t] rest] eqn:HL.
  - apply Permutation_length in Hp. rewrite length_map in Hp.
    destruct conflicting_files; simpl in Hp; [done|lia].
  - exists w, (map fst rest). split; [done|].
    change (w :: map fst rest) with (map fst ((w, t) :: rest)). split.
    + rewrite (Permutation_map fst Hp), map_map. simpl. by rewrite map_id.
    + by apply sorted_map_fst.
Qed.

Lemma resolve_by_timestamp_members (env : Env) (files : list string) w ls :
  _resolve_by_timestamp env files = inr (w, ls) -> w :: ls ≡ₚ files.
Proof.
  destruct files as [|f l].
  - unfold _resolve_by_timestamp, sort_desc. simpl. discriminate.
  - intros H. destruct (resolve_by_timestamp_result env (f :: l)) as (w' & ls' & H' & Hp & _);
      [done|]. rewrite H in H'. by injection H' as -> ->.
Qed.



Lemma resolve_manually_members (env : Env) (inputs : list (option Z)) (files : list string) w ls :
  _resolve_manually env inputs files = inr (w, ls) -> w ∈ files /\ ls = filter (fun f => f <> w) files.
Proof.
  unfold _resolve_manually.
  destruct (display_candidates env files); [discriminate|].
  destruct (read_choice _ _) as [k|]; [|discriminate].
  destruct (files !! Z.to_nat (k - 1)) as [w'|] eqn:Hw; [|discriminate].
  intros [= <- <-]. split; [|done]. by eapply list_elem_of_lookup_2.
Qed.



(** [_resolve_by_timestamp] on a non-empty list of candidates loses and
    duplicates none of them: the winner followed by the losers is a
    permutation of the candidates, ordered from the newest to the oldest
    modification time. *)
Theorem resolve_by_timestamp_permutation (env : Env) (conflicting_files : list string) :
  conflicting_files <> [] ->
  exists winner losers,
    _resolve_by_timestamp env conflicting_files = inr (winner, losers) /\
    winner :: losers ≡ₚ conflicting_files /\
    Sorted (fun a b => getmtime env b <= getmtime env a) (winner :: losers).
Proof. apply resolve_by_timestamp_result. Qed.

Lemma resolve_by_timestamp_permutation_witness :
  let env := mkEnv (fun _ => true) (fun f => if String.eqb f "b" then 30 else 10)
               Scenarios.utc_fromtimestamp (fun _ => None) in
  ["a"; "b"; "c"] <> [] /\
  exists winner losers,
    _resolve_by_timestamp env ["a"; "b"; "c"] = inr (winner, losers) /\
    winner :: losers ≡ₚ ["a"; "b"; "c"] /\
    Sorted (fun a b => getmtime env b <= getmtime env a) (winner :: losers).
Proof.
  intros env. split; [discriminate|].
  apply (resolve_by_timestamp_permutation env ["a"; "b"; "c"]). discriminate.
Defined.

Lemma resolve_conflict_members (policy : ResolutionPolicy) (env : Env)
    (inputs : list (option Z)) (files : list string) (log : list LogEntry) w ls :
  fst (resolve_conflict policy env inputs files log) = inr (w, ls) ->
  w ∈ files /\ (forall l, l ∈ ls -> l ∈ files) /\
  snd (resolve_conflict policy env inputs files log) = log ++ [mkLogEntry files w policy] /\
  (2 <= length files)%nat /\ Forall (fun f => path_exists env f = true) files.
Proof.
  unfold resolve_conflict.
  destruct (Nat.ltb_spec (length files) 2); simpl; [discriminate|].
  destruct (forallb (path_exists env) files) eqn:Hall; simpl; [|discriminate].
  assert (HF : Forall (fun f => path_exists env f = true) files).
  { apply Forall_forall. intros f Hf. apply list_elem_of_In in Hf.
    exact (proj1 (forallb_forall _ _) Hall f Hf). }
  destruct policy.
  - destruct (_resolve_by_timestamp env files) as [e|[w' ls']] eqn:Hr; simpl; [discriminate|].
    intros [= -> ->]. apply resolve_by_timestamp_members in Hr.
    split_and!; [| |done|lia|done].
    + rewrite <- Hr. apply elem_of_cons. by left.
    + intros l Hl. rewrite <- Hr. apply elem_of_cons. by right.
  - destruct (_resolve_manually env inputs files) as [e|[w' ls']] eqn:Hr; simpl; [discriminate|].
    intros [= -> ->]. apply resolve_manually_members in Hr as [Hw ->].
    split_and!; [done| |done|lia|done].
    intros l Hl. by apply list_elem_of_filter in Hl as [_ ?].
Qed.

(** [resolve_conflict] writes exactly one entry to the resolution log per
    successful call (the candidates, the winner and the policy) and none
    when it raises; on success there were at least two candidates, all
    existing, and the winner and every loser are among them. *)
Theorem resolve_conflict_log (policy : ResolutionPolicy) (env : Env)
    (inputs : list (option Z)) (files : list string) (log : list LogEntry) :
  (forall e, fst (resolve_conflict policy env inputs files log) = inl e ->
     snd (resolve_conflict policy env inputs files log) = log) /\
  (forall winner losers, fst (resolve_conflict policy env inputs files log) = inr (winner, losers) ->
     snd (resolve_conflict policy env inputs files log) = log ++ [mkLogEntry files winner policy] /\
     (2 <= length files)%nat /\ Forall (fun f => path_exists env f = true) files /\
     winner ∈ files /\ (forall l, l ∈ losers -> l ∈ files)).
Proof.
  split.
  - unfold resolve_conflict.
    destruct (length files <? 2)%nat; simpl; [done|].
    destruct (forallb (path_exists env) files); simpl; [|done].
    destruct (match policy with
              | NEWEST_WINS => _resolve_by_timestamp env files
              | MANUAL => _resolve_manually env inputs files end) as [e'|[w ls]]; simpl;
      [done|discriminate].
  - intros winner losers H.
    destruct (resolve_conflict_members policy env inputs files log winner losers H)
      as (? & ? & ? & ? & ?). done.
Qed.



End ConflictResolverFacts.

Module DirectorySynchronizerFacts.
Import DirectorySynchronizer.

Ltac run_step c i := eapply rtc_l; [apply (c _ i); reflexivity|]; simpl.

(** Claim C1 (refuted).  With two directories, both watchers can pass the
    [is_syncing] test before either sets the flag (the scan runs outside the
    lock and [is_syncing = True] is set without testing it again), so both
    reach [_handle_changes]: two sync sessions run at once. *)
Theorem two_sessions_reachable :
  exists w, rtc step (init 2) w /\ active_sessions w = 2%nat.
Proof.
  eexists. split.
  - run_step step_loop_enter 0%nat.
    run_step step_check_pass 0%nat.
    run_step step_loop_enter 1%nat.
    run_step step_check_pass 1%nat.
    run_step step_scan_changes 0%nat.
    run_step step_scan_changes 1%nat.
    eapply rtc_l; [apply (step_set _ 0%nat); reflexivity|]; simpl.
    eapply rtc_l; [apply (step_set _ 1%nat); reflexivity|]; simpl.
    apply rtc_refl.
  - reflexivity.
Qed.

Lemma at_most_one_session_fails :
  ~ (forall w, rtc step (init 2) w -> (active_sessions w <= 1)%nat).
Proof.
  intros Hall. destruct two_sessions_reachable as (w & Hw & H2).
  specialize (Hall w Hw). lia.
Qed.

Lemma wake_all_lookup (l : list PC) (i : nat) :
  wake_all l !! i = (fun pc => if decide (pc = PWaiting) then PCheck else pc) <$> l !! i.
Proof. unfold wake_all. revert i. induction l as [|pc l IH]; intros [|i]; simpl; auto. Qed.

Ltac not_idle H := exfalso; revert H; rewrite !elem_of_cons, elem_of_nil; intros [?|[?|[?|[?|[]]]]]; discriminate.

Lemma idle_wake (pc : PC) :
  pc ∈ [PLoop; PCheck; PWaiting; PExit] ->
  (if decide (pc = PWaiting) then PCheck else pc) ∈ [PLoop; PCheck; PWaiting; PExit].
Proof.
  intros H. destruct pc; simpl; first [apply (bool_decide_unpack _); vm_compute; reflexivity | not_idle H].
Qed.

Lemma step_stopped (w w' : World) (i : nat) (pc : PC) :
  running w = false -> step w w' -> pcs w !! i = Some pc ->
  pc ∈ [PLoop; PCheck; PWaiting; PExit] ->
  running w' = false /\
  exists pc', pcs w' !! i = Some pc' /\ pc' ∈ [PLoop; PCheck; PWaiting; PExit].
Proof.
  intros Hr Hs. revert Hr.
  destruct Hs as [w j Hj Hrun|w j Hj Hrun|w j Hj Hsy Hrun|w j Hj Hrun|w j Hj Hsy Hrun
                 |w j Hj|w j Hj|w j Hj|w j Hj|w j Hj|w j Hj|w];
    intros Hr Hi Hidle; unfold set_pc; simpl; try congruence;
    (split; [first [exact Hr | reflexivity]|]).
  - destruct (decide (j = i)) as [<-|Hne].
    + exists PExit. rewrite list_lookup_insert_eq by (eapply lookup_lt_Some; eauto).
      split; [done|apply (bool_decide_unpack _); reflexivity].
    + rewrite list_lookup_insert_ne by done. eauto.
  - destruct (decide (j = i)) as [<-|Hne].
    + exists PExit. rewrite list_lookup_insert_eq by (eapply lookup_lt_Some; eauto).
      split; [done|apply (bool_decide_unpack _); reflexivity].
    + rewrite list_lookup_insert_ne by done. eauto.
  - destruct (decide (j = i)) as [<-|Hne]; [rewrite Hj in Hi; injection Hi as <-; not_idle Hidle|].
    rewrite list_lookup_insert_ne by done. eauto.
  - destruct (decide (j = i)) as [<-|Hne]; [rewrite Hj in Hi; injection Hi as <-; not_idle Hidle|].
    rewrite list_lookup_insert_ne by done. eauto.
  - destruct (decide (j = i)) as [<-|Hne]; [rewrite Hj in Hi; injection Hi as <-; not_idle Hidle|].
    rewrite list_lookup_insert_ne by done. eauto.
  - destruct (decide (j = i)) as [<-|Hne]; [rewrite Hj in Hi; injection Hi as <-; not_idle Hidle|].
    rewrite list_lookup_insert_ne by done. eauto.
  - destruct (decide (j = i)) as [<-|Hne]; [rewrite Hj in Hi; injection Hi as <-; not_idle Hidle|].
    rewrite list_lookup_insert_ne by done. eauto.
  - destruct (decide (j = i)) as [<-|Hne]; [rewrite Hj in Hi; injection Hi as <-; not_idle Hidle|].
    rewrite wake_all_lookup, list_lookup_insert_ne, Hi by done. simpl.
    eexists. split; [reflexivity|]. by apply idle_wake.
  - rewrite wake_all_lookup, Hi. simpl. eexists. split; [reflexivity|]. by apply idle_wake.
Qed.

(** Once [stop()] has set [running] to [False], it stays [False], and a
    watcher thread that is not past the [is_syncing] test (at the top of its
    loop, re-testing the condition, blocked in [wait()], or finished) never
    gets past it again: it can only end its loop.  No new scan or sync
    session is started by such a thread. *)
Theorem stop_keeps_idle (w w' : World) (i : nat) (pc : PC) :
  running w = false -> pcs w !! i = Some pc -> pc ∈ [PLoop; PCheck; PWaiting; PExit] ->
  rtc step w w' ->
  running w' = false /\
  exists pc', pcs w' !! i = Some pc' /\ pc' ∈ [PLoop; PCheck; PWaiting; PExit].
Proof.
  intros Hr Hi Hidle Hsteps. revert pc Hr Hi Hidle.
  induction Hsteps as [w|w1 w2 w3 Hs _ IH]; intros pc Hr Hi Hidle; [eauto|].
  destruct (step_stopped w1 w2 i pc Hr Hs Hi Hidle) as (Hr2 & pc2 & Hi2 & Hidle2).
  exact (IH pc2 Hr2 Hi2 Hidle2).
Qed.

Lemma stop_keeps_idle_witness :
  let w := mkWorld false true [PWaiting; PSync] in
  let w' := mkWorld false false [PExit; PNotify] in
  running w = false /\ pcs w !! 0%nat = Some PWaiting /\
  PWaiting ∈ [PLoop; PCheck; PWaiting; PExit] /\ rtc step w w' /\
  (running w' = false /\
   exists pc', pcs w' !! 0%nat = Some pc' /\ pc' ∈ [PLoop; PCheck; PWaiting; PExit]).
Proof.
  intros w w'.
  assert (Hr : running w = false) by reflexivity.
  assert (Hi : pcs w !! 0%nat = Some PWaiting) by reflexivity.
  assert (Hidle : PWaiting ∈ [PLoop; PCheck; PWaiting; PExit])
    by (apply (bool_decide_unpack _); reflexivity).
  assert (Hsteps : rtc step w w').
  { eapply rtc_l; [apply step_stop|]. simpl.
    eapply rtc_l; [apply (step_check_stop _ 0%nat); reflexivity|]. unfold set_pc; simpl.
    eapply rtc_l; [apply (step_sync_done _ 1%nat); reflexivity|]. unfold set_pc; simpl.
    eapply rtc_l; [apply (step_clear _ 1%nat); reflexivity|]. simpl.
    apply rtc_refl. }
  split; [exact Hr|]. split; [exact Hi|]. split; [exact Hidle|]. split; [exact Hsteps|].
  exact (stop_keeps_idle w w' 0%nat PWaiting Hr Hi Hidle Hsteps).
Defined.

(** [stop()] does not cancel a scan already under way: a thread that has
    passed the [is_syncing] test and is scanning can still set
    [is_syncing] and enter [_handle_changes], whatever [running] is, since
    neither step tests [running]. *)
Theorem stop_does_not_cancel_scan (w : World) (i : nat) :
  pcs w !! i = Some PScan ->
  exists w', rtc step w w' /\ pcs w' !! i = Some PSync /\ is_syncing w' = true /\
             running w' = running w.
Proof.
  intros Hi. assert (Hlt : (i < length (pcs w))%nat) by (eapply lookup_lt_Some; eauto).
  eexists. split.
  - eapply rtc_l; [apply (step_scan_changes _ i Hi)|].
    eapply rtc_l; [apply (step_set _ i); unfold set_pc; simpl;
                   by rewrite list_lookup_insert_eq|].
    apply rtc_refl.
  - unfold set_pc; simpl. rewrite list_insert_insert_eq, list_lookup_insert_eq by done.
    split_and!; done.
Qed.

Lemma stop_does_not_cancel_scan_witness :
  let w := mkWorld false false [PExit; PScan] in
  pcs w !! 1%nat = Some PScan /\
  exists w', rtc step w w' /\ pcs w' !! 1%nat = Some PSync /\ is_syncing w' = true /\
             running w' = running w.
Proof.
  intros w. assert (Hi : pcs w !! 1%nat = Some PScan) by reflexivity.
  split; [exact Hi|]. exact (stop_does_not_cancel_scan w 1%nat Hi).
Defined.

End DirectorySynchronizerFacts.

Module FileOperationsFacts.
Import FileOperations Scenarios.

(** Claim C10.  When the source path does not exist, [copy_file] returns
    [False] without raising, after a single [os.path.exists] call: it leaves
    the file system as it found it (no directory, destination file or
    metadata is created or changed). *)
Theorem copy_file_missing_source (log_level : LogLevel) (source target : string)
    (ext : nat -> FS -> FS) (k : nat) (fs : FS) :
  fs_files (ext k fs) !! source = None ->
  source ∉ fs_dirs (ext k fs) ->
  copy_file log_level source target ext k fs = (S k, ext k fs, inr false).
Proof.
  intros Hf Hd. unfold copy_file, catch_oserror, bind, os_path_exists, prim, ret.
  rewrite Hf, (bool_decide_eq_false_2 (source ∈ _)) by done. reflexivity.
Qed.

Lemma copy_file_missing_source_witness :
  fs_files (no_interference 0%nat fs_ab) !! "/a/missing" = None /\
  ("/a/missing" ∉ fs_dirs (no_interference 0%nat fs_ab)) /\
  copy_file basic "/a/missing" "/b/missing" no_interference 0%nat fs_ab
    = (1%nat, no_interference 0%nat fs_ab, inr false).
Proof.
  assert (Hf : fs_files (no_interference 0%nat fs_ab) !! "/a/missing" = None) by reflexivity.
  assert (Hd : "/a/missing" ∉ fs_dirs (no_interference 0%nat fs_ab))
    by (unfold no_interference, fs_ab; simpl; set_solver).
  split; [exact Hf|]. split; [exact Hd|].
  apply (copy_file_missing_source basic "/a/missing" "/b/missing" no_interference 0%nat fs_ab Hf Hd).
Defined.

(** Claim C5 (code defect).  With the default log level [basic], the size
    comparison of [copy_file] is skipped: the source grows while it is
    copied, the destination ends up shorter than the source, and
    [copy_file] still reports success.  At log level [debug] the same run
    reports failure. *)
Theorem copy_file_basic_ignores_size_mismatch :
  (let '(_, fs, r) := copy_file basic "/a/f" "/b/f" edit_source_after_write 0%nat fs_ab in
   (r = inr true /\ file_size fs "/b/f" = Some 3%nat /\ file_size fs "/a/f" = Some 5%nat)) /\
  (let '(_, _, r) := copy_file debug "/a/f" "/b/f" edit_source_after_write 0%nat fs_ab in
   r = inr false).
Proof. vm_compute. repeat split. Qed.



Lemma bind_ok {A B} (m : M A) (g : A -> M B) ext k fs k' fs' x :
  m ext k fs = (k', fs', inr x) -> bind m g ext k fs = g x ext k' fs'.
Proof. unfold bind. by intros ->. Qed.

Lemma bind_err {A B} (m : M A) (g : A -> M B) ext k fs k' fs' e :
  m ext k fs = (k', fs', inl e) -> bind m g ext k fs = (k', fs', inl e).
Proof. unfold bind. by intros ->. Qed.


Ltac prim_step := unfold prim; cbv beta iota zeta.


Lemma catch_fnf (m : M bool) ext k fs k' fs' s :
  m ext k fs = (k', fs', inl (FileNotFoundError s)) -> catch_oserror m ext k fs = (k', fs', inr false).
Proof. unfold catch_oserror. by intros ->. Qed.


(** [os.makedirs('')] raises [FileNotFoundError]: without interference,
    [copy_file] to a target with no directory part (a bare file name)
    returns [False] and leaves the file system unchanged, even though the
    source exists. *)
Theorem copy_file_bare_target (log_level : LogLevel) (source target : string) (k : nat)
    (fs : FS) (f : file) :
  fs_files fs !! source = Some f ->
  dirname target = "" ->
  exists k', copy_file log_level source target (fun _ fs => fs) k fs = (k', fs, inr false).
Proof.
  intros Hf Hd.
  destruct log_level; eexists; eapply catch_fnf.
  all: erewrite (bind_ok _ _ _ _ _ _ _ true) by (unfold os_path_exists; prim_step; rewrite Hf; reflexivity).
  all: cbn [negb].
  all: erewrite bind_ok by first
    [reflexivity
    |erewrite bind_ok by (unfold os_path_getsize; prim_step; rewrite Hf; reflexivity);
     reflexivity].
  all: cbv beta.
  all: apply bind_err; unfold os_makedirs; prim_step; rewrite Hd; reflexivity.
Qed.

Lemma copy_file_bare_target_witness :
  fs_files fs_ab !! "/a/f" = Some (mkFile [Byte.x01; Byte.x02; Byte.x03] 7 493) /\
  dirname "f" = "" /\
  exists k', copy_file basic "/a/f" "f" (fun _ fs => fs) 0%nat fs_ab = (k', fs_ab, inr false).
Proof.
  assert (H1 : fs_files fs_ab !! "/a/f" = Some (mkFile [Byte.x01; Byte.x02; Byte.x03] 7 493))
    by reflexivity.
  assert (H2 : dirname "f" = "") by reflexivity.
  split; [exact H1|]. split; [exact H2|].
  exact (copy_file_bare_target basic "/a/f" "f" 0%nat fs_ab _ H1 H2).
Defined.








End FileOperationsFacts.

Module WatcherFacts.
Import Watcher.

Ltac scan_cases ft e meta :=
  destruct (mtime_obs e) as [t|];
  [destruct (ft t) as [err|];
   [destruct (is_oserror err)
   |destruct (hash_obs e) as [h|];
    [destruct (meta !! file_path e) as [m|] eqn:?; [destruct (String.eqb h (hash m))|]|]]|].

Lemma scan_files_app (ft : FromTimestamp) (l1 l2 : list WalkEntry) ch meta ex :
  scan_files ft (l1 ++ l2) ch meta ex =
  match scan_files ft l1 ch meta ex with
  | inl r => inl r
  | inr (ch', meta', ex') => scan_files ft l2 ch' meta' ex'
  end.
Proof.
  revert ch meta ex. induction l1 as [|e l1 IH]; intros ch meta ex; simpl; [done|].
  scan_cases ft e meta; try apply IH; done.
Qed.

(** Files with other paths do not touch the entries of [p]. *)
Lemma scan_files_frame (ft : FromTimestamp) (l : list WalkEntry) ch meta ex (p : string) ch' meta' ex' :
  p ∉ map file_path l -> scan_files ft l ch meta ex = inr (ch', meta', ex') ->
  ch' !! p = ch !! p /\ meta' !! p = meta !! p /\ (p ∈ ex' <-> p ∈ ex).
Proof.
  revert ch meta ex. induction l as [|e l IH]; intros ch meta ex Hp H; simpl in H.
  - by injection H as -> -> ->.
  - apply not_elem_of_cons in Hp as [Hne Hp].
    scan_cases ft e meta; try discriminate;
      (destruct (IH _ _ _ Hp H) as (H1 & H2 & H3);
       rewrite ?lookup_insert_ne in H1 by congruence;
       rewrite ?lookup_insert_ne in H2 by congruence;
       split_and!; [done|done|rewrite H3; set_solver]).
Qed.

(** Whether a scan completes depends on the walk only. *)
Lemma scan_files_inr_any (ft : FromTimestamp) (l : list WalkEntry) ch meta ex r ch2 meta2 ex2 :
  scan_files ft l ch meta ex = inr r -> exists r2, scan_files ft l ch2 meta2 ex2 = inr r2.
Proof.
  revert ch meta ex ch2 meta2 ex2.
  induction l as [|e l IH]; intros ch meta ex ch2 meta2 ex2 H; simpl in *; [by eexists|].
  destruct (mtime_obs e) as [t|]; [|eapply IH; exact H].
  destruct (ft t) as [err|]; [destruct (is_oserror err); [eapply IH; exact H|discriminate]|].
  destruct (hash_obs e) as [h|]; [|eapply IH; exact H].
  destruct (meta !! file_path e) as [m|]; [destruct (String.eqb h (hash m))|];
    (destruct (meta2 !! file_path e) as [m2|]; [destruct (String.eqb h (hash m2))|];
     eapply IH; exact H).
Qed.

Lemma scan_files_no_abort (ft : FromTimestamp) (l : list WalkEntry) ch meta ex :
  Forall (fun e => forall t err, mtime_obs e = Some t -> ft t = Some err -> is_oserror err = true) l ->
  exists r, scan_files ft l ch meta ex = inr r.
Proof.
  intros Hl. revert ch meta ex.
  induction Hl as [|e l He Hl IH]; intros ch meta ex; simpl; [by eexists|].
  destruct (mtime_obs e) as [t|] eqn:Hm; [|apply IH].
  destruct (ft t) as [err|] eqn:Ht; [rewrite (He t err eq_refl Ht); apply IH|].
  destruct (hash_obs e) as [h|]; [|apply IH].
  destruct (meta !! file_path e) as [m|]; [destruct (String.eqb h (hash m))|]; apply IH.
Qed.

(** A walked file: its entries after the whole loop are those left by its
    own iteration. *)
Lemma scan_files_entry (ft : FromTimestamp) (l1 l2 : list WalkEntry) (e : WalkEntry) ch meta ex ch' meta' ex' :
  file_path e ∉ map file_path l1 -> file_path e ∉ map file_path l2 ->
  scan_files ft (l1 ++ e :: l2) ch meta ex = inr (ch', meta', ex') ->
  exists c1 m1 x1, scan_files ft [e] ch meta ex = inr (c1, m1, x1) /\
    ch' !! file_path e = c1 !! file_path e /\ meta' !! file_path e = m1 !! file_path e /\
    file_path e ∈ ex'.
Proof.
  intros H1 H2 H.
  replace (l1 ++ e :: l2) with (l1 ++ [e] ++ l2) in H by done.
  rewrite !scan_files_app in H.
  destruct (scan_files ft l1 ch meta ex) as [r|[[c0 m0] x0]] eqn:E1; [discriminate|].
  destruct (scan_files_frame ft l1 ch meta ex _ c0 m0 x0 H1 E1) as (F1 & F2 & _).
  cbn [app scan_files] in H |- *. rewrite F2 in H.
  scan_cases ft e meta; simpl in H; try discriminate;
    (destruct (scan_files_frame ft l2 _ _ _ (file_path e) _ _ _ H2 H) as (G1 & G2 & G3);
     eexists _, _, _; split; [reflexivity|];
     rewrite G1, G2, ?lookup_insert_eq, ?F1, ?F2; split_and!; first [done | congruence | set_solver]).
Qed.

Lemma scan_directories_walked (ft : FromTimestamp) (walk : list WalkEntry) (snap : gmap string Metadata)
    (e : WalkEntry) r meta :
  NoDup (map file_path walk) -> e ∈ walk -> scan_directories ft walk snap = (inr r, meta) ->
  exists c1 m1 x1, scan_files ft [e] ∅ snap ∅ = inr (c1, m1, x1) /\
    r !! file_path e = c1 !! file_path e /\ meta !! file_path e = m1 !! file_path e.
Proof.
  intros Hnd Hin Hs. apply list_elem_of_split in Hin as (l1 & l2 & ->).
  rewrite map_app in Hnd. simpl in Hnd.
  apply NoDup_app in Hnd as (_ & Hdis & Hnd2). apply NoDup_cons in Hnd2 as [Hn2 _].
  assert (Hn1 : file_path e ∉ map file_path l1).
  { intros Hin. apply (Hdis _ Hin). apply elem_of_cons. by left. }
  unfold scan_directories in Hs.
  destruct (scan_files ft (l1 ++ e :: l2) ∅ snap ∅) as [[err m]|[[ch m] x]] eqn:E; [discriminate|].
  injection Hs as <- <-.
  destruct (scan_files_entry ft l1 l2 e ∅ snap ∅ ch m x Hn1 Hn2 E) as (c1 & m1 & x1 & E1 & R1 & R2 & R3).
  exists c1, m1, x1. split; [done|]. split.
  - rewrite lookup_union_l; [exact R1|]. rewrite lookup_fmap.
    apply fmap_None, map_lookup_filter_None. right. intros ? _ Hx. by apply Hx.
  - rewrite <- R2. rewrite map_lookup_filter. destruct (m !! file_path e); simpl; [|done].
    by rewrite option_guard_True.
Qed.

Lemma scan_directories_unwalked (ft : FromTimestamp) (walk : list WalkEntry) (snap : gmap string Metadata)
    (p : string) r meta :
  p ∉ map file_path walk -> scan_directories ft walk snap = (inr r, meta) ->
  r !! p = (fun _ => deleted) <$> snap !! p /\ meta !! p = None.
Proof.
  intros Hp Hs. unfold scan_directories in Hs.
  destruct (scan_files ft walk ∅ snap ∅) as [[err m]|[[ch m] x]] eqn:E; [discriminate|].
  injection Hs as <- <-.
  destruct (scan_files_frame ft walk ∅ snap ∅ p ch m x Hp E) as (F1 & F2 & F3).
  assert (Hx : p ∉ x) by (rewrite F3; set_solver).
  split.
  - rewrite lookup_union_r by (rewrite F1; apply lookup_empty).
    rewrite lookup_fmap, map_lookup_filter, F2.
    destruct (snap !! p); simpl; [|done]. by rewrite option_guard_True.
  - apply map_lookup_filter_None. right. intros ? _ Hin. by apply Hx.
Qed.





(** A walked entry rescanned against metadata that agrees, at its path, with
    what its first scan left gives no change and keeps that metadata. *)
Lemma scan_single_idem (ft : FromTimestamp) (e : WalkEntry) (meta m : gmap string Metadata) c1 m1 x1 :
  scan_files ft [e] ∅ meta ∅ = inr (c1, m1, x1) -> m !! file_path e = m1 !! file_path e ->
  exists c2 m2 x2, scan_files ft [e] ∅ m ∅ = inr (c2, m2, x2) /\
    c2 !! file_path e = None /\ m2 !! file_path e = m !! file_path e.
Proof.
  simpl. destruct (mtime_obs e) as [t|];
    [|intros [= <- <- <-] _; eexists _, _, _; split_and!; [reflexivity|apply lookup_empty|reflexivity]].
  destruct (ft t) as [err|];
    [destruct (is_oserror err);
     [intros [= <- <- <-] _; eexists _, _, _; split_and!; [reflexivity|apply lookup_empty|reflexivity]
     |discriminate]|].
  destruct (hash_obs e) as [h|];
    [|intros [= <- <- <-] _; eexists _, _, _; split_and!; [reflexivity|apply lookup_empty|reflexivity]].
  intros E Hm.
  assert (Hh : exists t', m !! file_path e = Some (mkMetadata h t') \/
                          exists m0, m !! file_path e = Some m0 /\ h = hash m0).
  { destruct (meta !! file_path e) as [m0|] eqn:Hm0.
    - destruct (String.eqb_spec h (hash m0)); injection E as <- <- <-.
      + exists 0. right. exists m0. by rewrite Hm, Hm0.
      + rewrite lookup_insert_eq in Hm. exists t. by left.
    - injection E as <- <- <-. rewrite lookup_insert_eq in Hm. exists t. by left. }
  destruct Hh as (t' & [Hs | (m0 & Hs & ->)]);
    (rewrite Hs; simpl; rewrite String.eqb_refl;
     eexists _, _, _; split_and!; [reflexivity|apply lookup_empty|congruence]).
Qed.

(** [scan_directories] reaches a fixed point in one scan: when the walk
    lists each path once and the scan completes, scanning the same walk
    again against the metadata it returned reports no change and returns
    that metadata unchanged. *)
Theorem scan_rescan_no_changes (ft : FromTimestamp) (walk : list WalkEntry) (snap : gmap string Metadata)
    (changes : gmap string ChangeType) (meta : gmap string Metadata) :
  NoDup (map file_path walk) ->
  scan_directories ft walk snap = (inr changes, meta) ->
  scan_directories ft walk meta = (inr ∅, meta).
Proof.
  intros Hnd Hs.
  assert (Hok : exists r, scan_files ft walk ∅ meta ∅ = inr r).
  { unfold scan_directories in Hs.
    destruct (scan_files ft walk ∅ snap ∅) as [[err m]|r] eqn:E; [discriminate|].
    eapply scan_files_inr_any. exact E. }
  destruct Hok as [r E2].
  destruct (scan_directories ft walk meta) as [[err|c] m'] eqn:Hs2.
  { unfold scan_directories in Hs2. rewrite E2 in Hs2. destruct r as [[? ?] ?]. discriminate. }
  assert (H : forall p, c !! p = None /\ m' !! p = meta !! p).
  { intros p. destruct (decide (p ∈ map file_path walk)) as [Hin|Hn].
    - change (map file_path walk) with (file_path <$> walk) in Hin.
      apply list_elem_of_fmap in Hin as (e & -> & Hin).
      destruct (scan_directories_walked ft walk meta e c m' Hnd Hin Hs2) as (c2 & m2 & x2 & E' & R1 & R2).
      destruct (scan_directories_walked ft walk snap e changes meta Hnd Hin Hs) as (c1 & m1 & x1 & E1 & _ & R2').
      destruct (scan_single_idem ft e snap meta c1 m1 x1 E1 R2') as (c3 & m3 & x3 & E3 & S1 & S2).
      rewrite E' in E3. injection E3 as <- <- <-. rewrite R1, R2. done.
    - destruct (scan_directories_unwalked ft walk meta p c m' Hn Hs2) as [U1 U2].
      destruct (scan_directories_unwalked ft walk snap p changes meta Hn Hs) as [_ V2].
      rewrite U1, U2, V2. done. }
  assert (c = ∅) as -> by (apply map_eq; intros p; rewrite lookup_empty; apply H).
  assert (m' = meta) as -> by (apply map_eq; intros p; apply H).
  reflexivity.
Qed.

Lemma scan_rescan_no_changes_witness :
  let walk := [mkWalkEntry "/r/a" (Some 5) (Some "h1"); mkWalkEntry "/r/b" (Some 6) None;
               mkWalkEntry "/r/c" (Some 7) (Some "h3")] in
  let snap : gmap string Metadata :=
    <["/r/c" := mkMetadata "h0" 1]> (<["/r/d" := mkMetadata "h4" 2]> ∅) in
  let r := scan_directories Scenarios.utc_fromtimestamp walk snap in
  let changes := match r.1 with inr c => c | inl _ => ∅ end in
  NoDup (map file_path walk) /\
  scan_directories Scenarios.utc_fromtimestamp walk snap = (inr changes, r.2) /\
  scan_directories Scenarios.utc_fromtimestamp walk r.2 = (inr ∅, r.2).
Proof.
  intros walk snap r changes.
  assert (Hnd : NoDup (map file_path walk))
    by (apply (bool_decide_unpack _); vm_compute; reflexivity).
  assert (Hs : scan_directories Scenarios.utc_fromtimestamp walk snap = (inr changes, r.2))
    by reflexivity.
  split; [exact Hnd|]. split; [exact Hs|].
  exact (scan_rescan_no_changes Scenarios.utc_fromtimestamp walk snap changes r.2 Hnd Hs).
Defined.

(** A scan that raises loses the changes it had found: when a walked file's
    modification time makes [datetime.fromtimestamp] raise an exception
    other than [OSError] (such as [ValueError] for a time past the year
    9999), [scan_directories] re-raises it, yet a new file walked before it
    is already recorded in [file_metadata].  No later scan that walks that
    file unchanged reports it: it is never reported as created. *)
Theorem scan_abort_hides_created (ft : FromTimestamp) (l1 l2 : list WalkEntry) (eb : WalkEntry)
    (tb : Z) (err : Exn) (snap : gmap string Metadata) (p : string) (t : Z) (h : string) :
  NoDup (map file_path l1) ->
  Forall (fun e => forall t' err', mtime_obs e = Some t' -> ft t' = Some err' -> is_oserror err' = true) l1 ->
  mtime_obs eb = Some tb -> ft tb = Some err -> is_oserror err = false ->
  mkWalkEntry p (Some t) (Some h) ∈ l1 -> ft t = None -> snap !! p = None ->
  exists meta,
    scan_directories ft (l1 ++ eb :: l2) snap = (inl err, meta) /\
    meta !! p = Some (mkMetadata h t) /\
    (forall walk' changes' meta', NoDup (map file_path walk') ->
       mkWalkEntry p (Some t) (Some h) ∈ walk' ->
       scan_directories ft walk' meta = (inr changes', meta') -> changes' !! p = None).
Proof.
  intros Hnd Hok Hmb Hft Hos Hin Ht Hsn.
  destruct (scan_files_no_abort ft l1 ∅ snap ∅ Hok) as [[[c m] x] E1].
  assert (Hm : m !! p = Some (mkMetadata h t)).
  { apply list_elem_of_split in Hin as (pre & post & Hl1). rewrite Hl1 in E1, Hnd.
    rewrite map_app in Hnd. simpl in Hnd.
    apply NoDup_app in Hnd as (_ & Hdis & Hnd2). apply NoDup_cons in Hnd2 as [Hn2 _].
    assert (Hn1 : p ∉ map file_path pre).
    { intros Hp. apply (Hdis _ Hp). apply elem_of_cons. by left. }
    destruct (scan_files_entry ft pre post (mkWalkEntry p (Some t) (Some h)) ∅ snap ∅ c m x Hn1 Hn2 E1)
      as (c1 & m1 & x1 & E & _ & R2 & _).
    simpl in E, R2. rewrite Ht, Hsn in E. simpl in E. injection E as <- <- <-.
    by rewrite R2, lookup_insert_eq. }
  exists m. split_and!.
  - unfold scan_directories. rewrite scan_files_app, E1. simpl.
    by rewrite Hmb, Hft, Hos.
  - exact Hm.
  - intros walk' changes' meta' Hnd' Hin' Hs'.
    destruct (scan_directories_walked ft walk' m _ changes' meta' Hnd' Hin' Hs')
      as (c1 & m1 & x1 & E & R1 & _).
    simpl in E, R1. rewrite Ht, Hm in E. simpl in E. rewrite String.eqb_refl in E.
    injection E as <- <- <-. by rewrite R1, lookup_empty.
Qed.

Lemma scan_abort_hides_created_witness :
  let ft := Scenarios.utc_fromtimestamp in
  let l1 := [mkWalkEntry "/r/a" (Some 5) (Some "h1")] in
  let eb := mkWalkEntry "/r/z" (Some 300000000000) (Some "h9") in
  NoDup (map file_path l1) /\
  Forall (fun e => forall t' err', mtime_obs e = Some t' -> ft t' = Some err' -> is_oserror err' = true) l1 /\
  mtime_obs eb = Some 300000000000 /\ ft 300000000000 = Some (ValueError "year is out of range") /\
  is_oserror (ValueError "year is out of range") = false /\
  mkWalkEntry "/r/a" (Some 5) (Some "h1") ∈ l1 /\ ft 5 = None /\ (∅ : gmap string Metadata) !! "/r/a" = None /\
  exists meta,
    scan_directories ft (l1 ++ eb :: []) ∅ = (inl (ValueError "year is out of range"), meta) /\
    meta !! "/r/a" = Some (mkMetadata "h1" 5) /\
    (forall walk' changes' meta', NoDup (map file_path walk') ->
       mkWalkEntry "/r/a" (Some 5) (Some "h1") ∈ walk' ->
       scan_directories ft walk' meta = (inr changes', meta') -> changes' !! "/r/a" = None).
Proof.
  intros ft l1 eb.
  assert (H1 : NoDup (map file_path l1)) by (repeat constructor; set_solver).
  assert (H2 : Forall (fun e => forall t' err', mtime_obs e = Some t' -> ft t' = Some err' ->
                                 is_oserror err' = true) l1).
  { constructor; [|constructor]. simpl. intros t' err' [= <-]. discriminate. }
  assert (H3 : mtime_obs eb = Some 300000000000) by reflexivity.
  assert (H4 : ft 300000000000 = Some (ValueError "year is out of range")) by reflexivity.
  assert (H5 : is_oserror (ValueError "year is out of range") = false) by reflexivity.
  assert (H6 : mkWalkEntry "/r/a" (Some 5) (Some "h1") ∈ l1) by (apply elem_of_cons; by left).
  assert (H7 : ft 5 = None) by reflexivity.
  assert (H8 : (∅ : gmap string Metadata) !! "/r/a" = None) by reflexivity.
  split; [exact H1|]. split; [exact H2|]. split; [exact H3|]. split; [exact H4|].
  split; [exact H5|]. split; [exact H6|]. split; [exact H7|]. split; [exact H8|].
  exact (scan_abort_hides_created ft l1 [] eb 300000000000 (ValueError "year is out of range") ∅
           "/r/a" 5 "h1" H1 H2 H3 H4 H5 H6 H7 H8).
Defined.

Lemma read_chunks_spec (fuel : nat) (d : list Byte.byte) :
  (length d <= 4096 * fuel)%nat ->
  concat (read_chunks fuel d) = d /\
  Forall (fun c => c <> [] /\ (length c <= 4096)%nat) (read_chunks fuel d) /\
  (forall i c c', read_chunks fuel d !! i = Some c -> read_chunks fuel d !! S i = Some c' ->
     length c = 4096%nat).
Proof.
  revert d. induction fuel as [|fuel IH]; intros d Hlen.
  - destruct d; simpl in Hlen; [|lia]. simpl. split_and!; [done|constructor|done].
  - simpl. destruct (take 4096 d) as [|b bs] eqn:Ht.
    + apply (f_equal length) in Ht. rewrite length_take in Ht. simpl in Ht.
      destruct d; simpl in Ht; [|lia]. split_and!; [done|constructor|done].
    + rewrite <- Ht.
      destruct (IH (drop 4096 d)) as (C & F & L); [rewrite length_drop; lia|].
      split_and!.
      * simpl. rewrite C. apply take_drop.
      * constructor; [|done]. rewrite Ht. split; [done|].
        rewrite <- Ht, length_take. lia.
      * intros [|i] c c' Hc Hc'; simpl in Hc, Hc'.
        -- injection Hc as <-. rewrite length_take.
           destruct (drop 4096 d) eqn:Hd.
           ++ destruct fuel; simpl in Hc'; done.
           ++ apply (f_equal length) in Hd. rewrite length_drop in Hd. simpl in Hd. lia.
        -- by apply (L i c c').
Qed.

(** The read loop of [get_file_hash] feeds the hasher the whole file, in
    order: the buffers concatenate to the file's bytes, none is empty, none
    exceeds 4096 bytes, and every buffer but the last holds exactly 4096. *)
Theorem get_file_hash_chunks (content : list Byte.byte) :
  concat (read_chunks (S (length content)) content) = content /\
  Forall (fun c => c <> [] /\ (length c <= 4096)%nat) (read_chunks (S (length content)) content) /\
  (forall i c c', read_chunks (S (length content)) content !! i = Some c ->
     read_chunks (S (length content)) content !! S i = Some c' -> length c = 4096%nat).
Proof. apply read_chunks_spec. lia. Qed.

End WatcherFacts.

Module FileValidationFacts.
Import FileOperations Watcher FileValidation FileOperationsFacts WatcherFacts.




End FileValidationFacts.

Module SyncManagerFacts.
Import ConflictResolver Watcher SyncManager.

Lemma list_ascii_of_string_app (s1 s2 : string) :
  list_ascii_of_string (s1 ++ s2) = list_ascii_of_string s1 ++ list_ascii_of_string s2.
Proof. induction s1 as [|c s1 IH]; simpl; [done|]. by rewrite IH. Qed.

Lemma list_ascii_of_string_inj (s1 s2 : string) :
  list_ascii_of_string s1 = list_ascii_of_string s2 -> s1 = s2.
Proof.
  intros H. rewrite <- (string_of_list_ascii_of_string s1), <- (string_of_list_ascii_of_string s2).
  by rewrite H.
Qed.

(** The part of [path_join a rel] before [rel], for a relative [rel]. *)
Lemma path_join_relative (a rel : string) :
  starts_with_slash rel = false -> a <> "" ->
  list_ascii_of_string (path_join a rel) =
    (if ends_with_slash a then list_ascii_of_string a
     else list_ascii_of_string a ++ ["/"%char]) ++ list_ascii_of_string rel.
Proof.
  intros Hrel Ha. unfold path_join. rewrite Hrel.
  destruct (String.eqb_spec a "") as [->|_]; [done|]. simpl.
  destruct (ends_with_slash a); rewrite !list_ascii_of_string_app; [done|].
  by rewrite <- app_assoc.
Qed.

Lemma abspath_form_nonempty (d : string) : abspath_form d = true -> d <> "".
Proof. intros H ->. done. Qed.

Lemma abspath_form_ends_with_slash (d : string) :
  abspath_form d = true -> ends_with_slash d = true -> d = "/".
Proof.
  unfold abspath_form. intros H He. apply andb_prop in H as [_ H].
  rewrite He in H. simpl in H. rewrite orb_false_r in H. by apply String.eqb_eq.
Qed.

(** For directories in [os.path.abspath] form and a relative path, as
    [main.py] supplies them, [posixpath.join(_, rel)] is injective. *)
Lemma path_join_inj (a1 a2 rel : string) :
  abspath_form a1 = true -> abspath_form a2 = true -> starts_with_slash rel = false ->
  path_join a1 rel = path_join a2 rel -> a1 = a2.
Proof.
  intros H1 H2 Hrel Heq.
  apply (f_equal list_ascii_of_string) in Heq.
  rewrite !path_join_relative in Heq by (done || by apply abspath_form_nonempty).
  apply app_inv_tail in Heq.
  destruct (ends_with_slash a1) eqn:E1, (ends_with_slash a2) eqn:E2.
  - by apply list_ascii_of_string_inj.
  - exfalso. rewrite (abspath_form_ends_with_slash a1) in Heq by done.
    simpl in Heq. destruct (list_ascii_of_string a2) as [|c [|c' l]] eqn:L2.
    + unfold abspath_form, starts_with_slash in H2. by rewrite L2 in H2.
    + done.
    + simpl in Heq. destruct l; discriminate.
  - exfalso. rewrite (abspath_form_ends_with_slash a2) in Heq by done.
    simpl in Heq. destruct (list_ascii_of_string a1) as [|c [|c' l]] eqn:L1.
    + unfold abspath_form, starts_with_slash in H1. by rewrite L1 in H1.
    + done.
    + simpl in Heq. destruct l; discriminate.
  - apply app_inv_tail in Heq. by apply list_ascii_of_string_inj.
Qed.

(** The hypothesis of claim C3 holds for every change [sync_files] hands to
    [_process_change] when the directories are built as in [main.py]:
    absolute, distinct from the source, and joined to a relative path.
    Then [os.path.join(source_dir, rel)] is none of the paths
    [os.path.join(d, rel)] built for the target directories. *)
Theorem source_path_not_target (sm : SyncManager) (rel : string) :
  abspath_form (source_dir sm) = true ->
  Forall (fun d => abspath_form d = true) (target_dirs sm) ->
  source_dir sm ∉ target_dirs sm ->
  starts_with_slash rel = false ->
  path_join (source_dir sm) rel ∉ map (fun d => path_join d rel) (target_dirs sm).
Proof.
  intros Hs Ht Hnin Hrel Hin.
  apply list_elem_of_fmap in Hin as (d & Hj & Hd).
  apply Hnin. rewrite Forall_forall in Ht.
  assert (Had : abspath_form d = true) by (apply Ht; exact Hd).
  by rewrite (path_join_inj (source_dir sm) d rel).
Qed.

Lemma source_path_not_target_witness :
  let sm := mkSyncManager "/a" ["/"; "/ab"; "/a/b"] ConflictResolver.NEWEST_WINS in
  abspath_form (source_dir sm) = true /\
  Forall (fun d => abspath_form d = true) (target_dirs sm) /\
  (source_dir sm ∉ target_dirs sm) /\
  starts_with_slash "f" = false /\
  path_join (source_dir sm) "f" ∉ map (fun d => path_join d "f") (target_dirs sm).
Proof.
  intros sm.
  assert (H1 : abspath_form (source_dir sm) = true) by reflexivity.
  assert (H2 : Forall (fun d => abspath_form d = true) (target_dirs sm))
    by (repeat constructor).
  assert (H3 : source_dir sm ∉ target_dirs sm)
    by (apply (bool_decide_unpack _); vm_compute; reflexivity).
  assert (H4 : starts_with_slash "f" = false) by reflexivity.
  split; [exact H1|]. split; [exact H2|]. split; [exact H3|]. split; [exact H4|].
  exact (source_path_not_target sm "f" H1 H2 H3 H4).
Defined.

(** Claim C3.  For a created or modified file whose source path is not one
    of the target paths: with no existing target copy the source is copied
    to every target and the resolver is not called (log and statistics
    untouched); otherwise the resolver is called on the source plus the
    existing targets; if the source wins it is copied to every target, if a
    target wins it is copied to the source and to every other target, and
    the winner is never a destination.  A resolver exception submits no
    copy. *)
Theorem handle_file_update_targets (sm : SyncManager) (env : SessionEnv)
    (source_path : string) (target_paths : list string) (log : list LogEntry) :
  source_path ∉ target_paths ->
  let existing_targets := filter (fun p => path_exists (resolver_env env) p = true) target_paths in
  let r := _handle_file_update sm env source_path target_paths log in
  (existing_targets = [] ->
     p_tasks r = map (CopyTask source_path) target_paths /\ p_stats r = [] /\
     p_log r = log /\ p_exn r = None) /\
  (existing_targets <> [] ->
     forall res log',
       resolve_conflict (resolution_policy sm) (resolver_env env) (operator_inputs env)
         (source_path :: existing_targets) log = (res, log') ->
       p_log r = log' /\
       (forall e, res = inl e -> p_tasks r = [] /\ p_exn r = Some e) /\
       (forall winner losers, res = inr (winner, losers) ->
          p_stats r = [s_conflicts_resolved] /\ p_exn r = None /\
          (winner = source_path -> p_tasks r = map (CopyTask source_path) target_paths) /\
          (winner <> source_path ->
             p_tasks r = CopyTask winner source_path ::
                         map (CopyTask winner) (filter (fun t => t <> winner) target_paths)) /\
          (forall src dst, CopyTask src dst ∈ p_tasks r -> src = winner /\ dst <> winner))).
Proof.
  intros Hsrc existing_targets r. subst r. unfold _handle_file_update.
  fold existing_targets.
  split.
  - intros ->. done.
  - intros Hne res log' Hres.
    destruct existing_targets as [|x xs] eqn:Hex; [done|].
    rewrite Hres. destruct res as [e|[winner losers]].
    + split; [done|]. split; [intros ? [= <-]; done|]. intros ? ? [=].
    + split; [by destruct (String.eqb winner source_path)|].
      split; [intros ? [=]|].
      intros w l [= <- <-].
      destruct (String.eqb_spec winner source_path) as [->|Hw]; simpl.
      * split_and!; [done|done|done|done|].
        intros src dst Hin. apply list_elem_of_fmap in Hin as (t & [= -> ->] & Ht).
        split; [done|]. intros ->. by apply Hsrc.
      * split_and!; [done|done|done|done|].
        intros src dst Hin. apply elem_of_cons in Hin as [[= -> ->]|Hin]; [done|].
        apply list_elem_of_fmap in Hin as (t & [= -> ->] & Ht).
        apply list_elem_of_filter in Ht as [Ht _]. done.
Qed.

Lemma increment_stat_counter (n m : StatName) (st : Stats) :
  counter m (_increment_stat n st) = (counter m st + if decide (n = m) then 1 else 0)%nat.
Proof. destruct n, m; simpl; lia. Qed.

Lemma increment_stat_times (n : StatName) (st : Stats) :
  start_time (_increment_stat n st) = start_time st /\ end_time (_increment_stat n st) = end_time st.
Proof. by destruct n. Qed.

Lemma apply_stats_counter (trace : list StatName) (m : StatName) (st : Stats) :
  counter m (apply_stats trace st) = (counter m st + length (filter (fun x => x = m) trace))%nat.
Proof.
  revert st. induction trace as [|n trace IH]; intros st; simpl; [lia|].
  unfold apply_stats in IH. rewrite IH, increment_stat_counter, filter_cons.
  destruct (decide (n = m)); simpl; lia.
Qed.

(** Claim C8.  [sync_files] on an empty change set submits no task,
    performs no increment and leaves the four counters as they were. *)
Theorem sync_files_empty (sm : SyncManager) (env : SessionEnv) (t0 t1 : Z)
    (st : Stats) (log : list LogEntry) :
  executed (sync_files sm env t0 t1 [] st log).1 = [] /\
  stat_trace (sync_files sm env t0 t1 [] st log).1 = [] /\
  files_synced (sync_files sm env t0 t1 [] st log).2 = files_synced st /\
  files_deleted (sync_files sm env t0 t1 [] st log).2 = files_deleted st /\
  conflicts_resolved (sync_files sm env t0 t1 [] st log).2 = conflicts_resolved st /\
  failed_operations (sync_files sm env t0 t1 [] st log).2 = failed_operations st.
Proof. done. Qed.

(** Claim C9.  [_increment_stat] adds exactly one to the named counter and
    changes nothing else; in a session the counters change only through
    these increments, applied along the session's trace, so every counter
    ends at its start value plus the number of its increments and never
    decreases. *)
Theorem stats_only_increment (sm : SyncManager) (env : SessionEnv) (t0 t1 : Z)
    (changes : list (string * ChangeType)) (st : Stats) (log : list LogEntry) :
  (forall n m st0, counter m (_increment_stat n st0) =
                   (counter m st0 + if decide (n = m) then 1 else 0)%nat) /\
  (forall m, counter m (sync_files sm env t0 t1 changes st log).2 =
             counter m (apply_stats (stat_trace (sync_files sm env t0 t1 changes st log).1) st)) /\
  (forall m, counter m (sync_files sm env t0 t1 changes st log).2 =
             (counter m st + length (filter (fun x => x = m)
                                      (stat_trace (sync_files sm env t0 t1 changes st log).1)))%nat) /\
  (forall m, (counter m st <= counter m (sync_files sm env t0 t1 changes st log).2)%nat).
Proof.
  assert (Hc : forall m, counter m (sync_files sm env t0 t1 changes st log).2 =
             counter m (apply_stats (stat_trace (sync_files sm env t0 t1 changes st log).1) st)).
  { intros m. unfold sync_files.
    destruct (submit_changes sm env changes log) as [[stats1 tasks] log']. simpl.
    set (trace := stats1 ++ flat_map (run_task env) tasks).
    set (st0 := mkStats (files_synced st) (files_deleted st) (conflicts_resolved st)
                  (failed_operations st) (Some t0) (end_time st)).
    pose proof (apply_stats_counter trace m st) as A.
    pose proof (apply_stats_counter trace m st0) as B.
    destruct m; simpl in *; lia. }
  split_and!.
  - apply increment_stat_counter.
  - exact Hc.
  - intros m. rewrite Hc. apply apply_stats_counter.
  - intros m. rewrite Hc, apply_stats_counter. lia.
Qed.

(** A failed copy or delete ([FileOperations] returned [False]) is not
    counted in [failed_operations]: a session with one created file that
    cannot be copied and one deleted file that cannot be deleted ends with
    [failed_operations = 0]. *)
Lemma io_failures_not_counted :
  executed (sync_files Scenarios.sm_ab Scenarios.env_io_fails 0 1
              [("f", created); ("g", deleted)] initial_stats []).1
    = [CopyTask "/a/f" "/b/f"; DeleteTask "/b/g"] /\
  copy_result Scenarios.env_io_fails "/a/f" "/b/f" = false /\
  delete_result Scenarios.env_io_fails "/b/g" = false /\
  failed_operations (sync_files Scenarios.sm_ab Scenarios.env_io_fails 0 1
              [("f", created); ("g", deleted)] initial_stats []).2 = 0%nat.
Proof. vm_compute. repeat split. Qed.

Lemma process_change_no_failed_stat sm env ct sp tps log :
  filter (fun x => x = s_failed_operations) (p_stats (_process_change sm env ct sp tps log)) = [].
Proof.
  destruct ct; simpl; try done; unfold _handle_file_update;
    destruct (filter _ tps); try done;
    destruct (resolve_conflict _ _ _ _ _) as [[e|[w ls]] log']; try done;
    destruct (String.eqb w sp); done.
Qed.

Lemma process_all_env_independent sm env1 env2 changes log :
  resolver_env env1 = resolver_env env2 ->
  operator_inputs env1 = operator_inputs env2 ->
  process_all sm env1 changes log = process_all sm env2 changes log.
Proof.
  destruct env1 as [r1 i1 c1 d1], env2 as [r2 i2 c2 d2]; simpl; intros -> ->.
  revert log. induction changes as [|[rel ct] changes IH]; intros log; simpl; [done|].
  assert (Hp : forall sp tps lg, _process_change sm (mkSessionEnv r2 i2 c1 d1) ct sp tps lg
                             = _process_change sm (mkSessionEnv r2 i2 c2 d2) ct sp tps lg)
    by (intros; reflexivity).
  rewrite Hp, IH. done.
Qed.

Lemma run_task_no_failed_stat env tasks :
  filter (fun x => x = s_failed_operations) (flat_map (run_task env) tasks) = [].
Proof.
  induction tasks as [|t tasks IH]; simpl; [done|].
  rewrite filter_app, IH.
  destruct t as [src dst|pth]; simpl;
    [destruct (copy_result env src dst)|destruct (delete_result env pth)]; done.
Qed.

Lemma processed_failed_count rs :
  (forall r, r ∈ rs -> filter (fun x => x = s_failed_operations) (p_stats r) = []) ->
  length (filter (fun x => x = s_failed_operations) (flat_map processed_stats rs))
  = length (filter (fun r => is_Some (p_exn r)) rs).
Proof.
  induction rs as [|r rs IH]; intros Hr; simpl; [done|].
  rewrite filter_app, length_app, IH by (intros; apply Hr; by apply elem_of_cons; right).
  unfold processed_stats. rewrite filter_app, length_app, (Hr r) by (apply elem_of_cons; by left).
  rewrite (filter_cons _ r). by destruct (p_exn r).
Qed.

Lemma process_all_no_failed_stat sm env changes log r :
  r ∈ process_all sm env changes log ->
  filter (fun x => x = s_failed_operations) (p_stats r) = [].
Proof.
  revert log. induction changes as [|[rel ct] changes IH]; intros log Hin; simpl in Hin.
  - by apply elem_of_nil in Hin.
  - apply elem_of_cons in Hin as [->|Hin]; [apply process_change_no_failed_stat|].
    by eapply IH.
Qed.

(** Claim C4 (as corrected).  A copy or delete that fails aborts nothing:
    the tasks a session runs are the same whatever the outcomes of the
    copies and deletes, and every submitted task runs.  Such failures are
    not counted: [failed_operations] grows by exactly the number of changes
    whose processing raised an exception (a conflict-resolution error). *)
Theorem session_failures_isolated (sm : SyncManager) (env1 env2 : SessionEnv) (t0 t1 : Z)
    (changes : list (string * ChangeType)) (st : Stats) (log : list LogEntry) :
  resolver_env env1 = resolver_env env2 ->
  operator_inputs env1 = operator_inputs env2 ->
  executed (sync_files sm env1 t0 t1 changes st log).1
    = executed (sync_files sm env2 t0 t1 changes st log).1 /\
  executed (sync_files sm env1 t0 t1 changes st log).1
    = flat_map p_tasks (process_all sm env1 changes log) /\
  stat_trace (sync_files sm env1 t0 t1 changes st log).1
    = flat_map processed_stats (process_all sm env1 changes log) ++
      flat_map (run_task env1) (executed (sync_files sm env1 t0 t1 changes st log).1) /\
  failed_operations (sync_files sm env1 t0 t1 changes st log).2
    = (failed_operations st +
       length (filter (fun r => is_Some (p_exn r)) (process_all sm env1 changes log)))%nat.
Proof.
  intros H1 H2.
  unfold sync_files, submit_changes. simpl.
  pose proof (apply_stats_counter
    (flat_map processed_stats (process_all sm env1 changes log) ++
     flat_map (run_task env1) (flat_map p_tasks (process_all sm env1 changes log)))
    s_failed_operations
    (mkStats (files_synced st) (files_deleted st) (conflicts_resolved st)
       (failed_operations st) (Some t0) (end_time st))) as Hf.
  simpl in Hf. rewrite Hf.
  split_and!.
  - by rewrite (process_all_env_independent sm env1 env2 changes log H1 H2).
  - done.
  - done.
  - rewrite filter_app, length_app, run_task_no_failed_stat, processed_failed_count;
      [simpl; lia|].
    intros r Hr. eapply process_all_no_failed_stat. exact Hr.
Qed.

Lemma session_failures_isolated_witness :
  resolver_env Scenarios.env_io_fails = resolver_env Scenarios.env_io_ok /\
  operator_inputs Scenarios.env_io_fails = operator_inputs Scenarios.env_io_ok /\
  let sm := Scenarios.sm_ab in
  let changes := [("f", created); ("g", deleted)] in
  executed (sync_files sm Scenarios.env_io_fails 0 1 changes initial_stats []).1
    = executed (sync_files sm Scenarios.env_io_ok 0 1 changes initial_stats []).1 /\
  executed (sync_files sm Scenarios.env_io_fails 0 1 changes initial_stats []).1
    = flat_map p_tasks (process_all sm Scenarios.env_io_fails changes []) /\
  stat_trace (sync_files sm Scenarios.env_io_fails 0 1 changes initial_stats []).1
    = flat_map processed_stats (process_all sm Scenarios.env_io_fails changes []) ++
      flat_map (run_task Scenarios.env_io_fails)
        (executed (sync_files sm Scenarios.env_io_fails 0 1 changes initial_stats []).1) /\
  failed_operations (sync_files sm Scenarios.env_io_fails 0 1 changes initial_stats []).2
    = (failed_operations initial_stats +
       length (filter (fun r => is_Some (p_exn r))
                 (process_all sm Scenarios.env_io_fails changes [])))%nat.
Proof.
  split; [reflexivity|]. split; [reflexivity|].
  apply (session_failures_isolated Scenarios.sm_ab Scenarios.env_io_fails Scenarios.env_io_ok
           0 1 [("f", created); ("g", deleted)] initial_stats []); reflexivity.
Defined.

Lemma handle_file_update_targets_witness :
  ("/a/f" ∉ ["/b/f"; "/c/f"]) /\
  let sm := Scenarios.sm_ab in
  let env := Scenarios.env_b_newer in
  let existing_targets :=
    filter (fun p => path_exists (resolver_env env) p = true) ["/b/f"; "/c/f"] in
  let r := _handle_file_update sm env "/a/f" ["/b/f"; "/c/f"] [] in
  (existing_targets = [] ->
     p_tasks r = map (CopyTask "/a/f") ["/b/f"; "/c/f"] /\ p_stats r = [] /\
     p_log r = [] /\ p_exn r = None) /\
  (existing_targets <> [] ->
     forall res log',
       resolve_conflict (resolution_policy sm) (resolver_env env) (operator_inputs env)
         ("/a/f" :: existing_targets) [] = (res, log') ->
       p_log r = log' /\
       (forall e, res = inl e -> p_tasks r = [] /\ p_exn r = Some e) /\
       (forall winner losers, res = inr (winner, losers) ->
          p_stats r = [s_conflicts_resolved] /\ p_exn r = None /\
          (winner = "/a/f" -> p_tasks r = map (CopyTask "/a/f") ["/b/f"; "/c/f"]) /\
          (winner <> "/a/f" ->
             p_tasks r = CopyTask winner "/a/f" ::
                         map (CopyTask winner) (filter (fun t => t <> winner) ["/b/f"; "/c/f"])) /\
          (forall src dst, CopyTask src dst ∈ p_tasks r -> src = winner /\ dst <> winner))).
Proof.
  assert (H : "/a/f" ∉ ["/b/f"; "/c/f"])
    by (apply (bool_decide_unpack _); vm_compute; reflexivity).
  split; [exact H|].
  exact (handle_file_update_targets Scenarios.sm_ab Scenarios.env_b_newer "/a/f" ["/b/f"; "/c/f"] [] H).
Defined.

(** On this input the target copy wins and is copied back to the source
    and to the other target only. *)
Example handle_file_update_b_wins :
  p_tasks (_handle_file_update Scenarios.sm_ab Scenarios.env_b_newer "/a/f" ["/b/f"; "/c/f"] [])
  = [CopyTask "/b/f" "/a/f"; CopyTask "/b/f" "/c/f"].
Proof. vm_compute. reflexivity. Qed.


Lemma apply_stats_times (trace : list StatName) (st : Stats) :
  start_time (apply_stats trace st) = start_time st /\ end_time (apply_stats trace st) = end_time st.
Proof.
  unfold apply_stats. revert st. induction trace as [|n trace IH]; intros st; simpl; [done|].
  destruct (IH (_increment_stat n st)) as [H1 H2].
  rewrite H1, H2. apply increment_stat_times.
Qed.

Lemma sync_files_times sm env ta tb ch st log :
  start_time (sync_files sm env ta tb ch st log).2 = Some ta /\
  end_time (sync_files sm env ta tb ch st log).2 = Some tb.
Proof.
  unfold sync_files. destruct (submit_changes sm env ch log) as [[stats1 tasks] log']. simpl.
  split; [|done]. by rewrite (proj1 (apply_stats_times _ _)).
Qed.

Lemma sync_files_counter sm env ta tb ch st log m :
  counter m (sync_files sm env ta tb ch st log).2
  = (counter m st + length (filter (fun x => x = m) (stat_trace (sync_files sm env ta tb ch st log).1)))%nat.
Proof.
  unfold sync_files. destruct (submit_changes sm env ch log) as [[stats1 tasks] log']. simpl.
  pose proof (apply_stats_counter (stats1 ++ flat_map (run_task env) tasks) m st) as A.
  pose proof (apply_stats_counter (stats1 ++ flat_map (run_task env) tasks) m
    (mkStats (files_synced st) (files_deleted st) (conflicts_resolved st)
       (failed_operations st) (Some ta) (end_time st))) as B.
  destruct m; simpl in *; lia.
Qed.

Lemma filter_neq_not_in (x : string) (l : list string) :
  x ∉ l -> filter (fun d => d <> x) l = l.
Proof.
  induction l as [|y l IH]; intros Hx; simpl; [done|].
  apply not_elem_of_cons in Hx as [Hxy Hx].
  rewrite filter_cons_True by congruence. by rewrite IH.
Qed.

(** A processed update that raised nothing: one file [w] among the source
    and the targets is copied once to every other one of them. *)
Theorem handle_file_update_copies (sm : SyncManager) (env : SessionEnv)
    (source_path : string) (target_paths : list string) (log : list LogEntry) :
  source_path ∉ target_paths ->
  p_exn (_handle_file_update sm env source_path target_paths log) = None ->
  exists w, w ∈ source_path :: target_paths /\
    p_tasks (_handle_file_update sm env source_path target_paths log)
    = map (CopyTask w) (filter (fun d => d <> w) (source_path :: target_paths)).
Proof.
  intros Hsrc. unfold _handle_file_update.
  assert (Hself : map (CopyTask source_path) target_paths
                  = map (CopyTask source_path) (filter (fun d => d <> source_path) (source_path :: target_paths))).
  { rewrite filter_cons_False by congruence. by rewrite filter_neq_not_in. }
  destruct (filter (fun p => path_exists (resolver_env env) p = true) target_paths)
    as [|x xs] eqn:Hex.
  - intros _. exists source_path. split; [apply elem_of_cons; by left|done].
  - destruct (resolve_conflict (resolution_policy sm) (resolver_env env) (operator_inputs env)
                (source_path :: x :: xs) log) as [[e|[w ls]] log'] eqn:Hr; simpl; [discriminate|].
    intros _.
    pose proof (ConflictResolverFacts.resolve_conflict_members _ _ _ _ _ w ls
                  (f_equal fst Hr)) as (Hw & _).
    destruct (String.eqb_spec w source_path) as [->|Hne]; simpl.
    + exists source_path. split; [apply elem_of_cons; by left|done].
    + exists w. split.
      * apply elem_of_cons. right. apply elem_of_cons in Hw as [?|Hw]; [done|].
        rewrite <- Hex in Hw. by apply list_elem_of_filter in Hw as [_ ?].
      * by rewrite filter_cons_True by congruence.
Qed.

Lemma handle_file_update_copies_witness :
  ("/a/f" ∉ ["/b/f"; "/c/f"]) /\
  p_exn (_handle_file_update Scenarios.sm_ab Scenarios.env_b_newer "/a/f" ["/b/f"; "/c/f"] []) = None /\
  exists w, w ∈ ["/a/f"; "/b/f"; "/c/f"] /\
    p_tasks (_handle_file_update Scenarios.sm_ab Scenarios.env_b_newer "/a/f" ["/b/f"; "/c/f"] [])
    = map (CopyTask w) (filter (fun d => d <> w) ["/a/f"; "/b/f"; "/c/f"]).
Proof.
  assert (H1 : "/a/f" ∉ ["/b/f"; "/c/f"])
    by (apply (bool_decide_unpack _); vm_compute; reflexivity).
  assert (H2 : p_exn (_handle_file_update Scenarios.sm_ab Scenarios.env_b_newer "/a/f"
                        ["/b/f"; "/c/f"] []) = None) by (vm_compute; reflexivity).
  split; [exact H1|]. split; [exact H2|].
  exact (handle_file_update_copies Scenarios.sm_ab Scenarios.env_b_newer "/a/f" ["/b/f"; "/c/f"] [] H1 H2).
Defined.

Lemma process_change_stats sm env ct sp tps log :
  p_stats (_process_change sm env ct sp tps log) = [] \/
  p_stats (_process_change sm env ct sp tps log) = [s_conflicts_resolved].
Proof.
  destruct ct; simpl; try (by left); unfold _handle_file_update;
    destruct (filter _ tps); try (by left);
    destruct (resolve_conflict _ _ _ _ _) as [[e|[w ls]] log']; try (by left);
    destruct (String.eqb w sp); by right.
Qed.

Lemma resolve_conflict_log_error policy env inputs files log e :
  fst (resolve_conflict policy env inputs files log) = inl e ->
  snd (resolve_conflict policy env inputs files log) = log.
Proof.
  unfold resolve_conflict.
  destruct (length files <? 2)%nat; simpl; [done|].
  destruct (forallb (path_exists env) files); simpl; [|done].
  destruct (match policy with
            | NEWEST_WINS => _resolve_by_timestamp env files
            | MANUAL => _resolve_manually env inputs files end) as [e'|[w ls]]; simpl;
    [done|discriminate].
Qed.

(** Each processed change adds one log entry exactly when it counts a
    resolved conflict. *)
Lemma process_change_log sm env ct sp tps log :
  (length (filter (fun x => x = s_conflicts_resolved) (p_stats (_process_change sm env ct sp tps log)))
   + length log = length (p_log (_process_change sm env ct sp tps log)))%nat.
Proof.
  destruct ct; simpl; try done; unfold _handle_file_update;
    destruct (filter _ tps) as [|x xs]; try done;
    destruct (resolve_conflict _ _ _ _ _) as [[e|[w ls]] log'] eqn:Hr;
    try (pose proof (resolve_conflict_log_error _ _ _ _ _ e (f_equal fst Hr)) as He;
         rewrite Hr in He; simpl in He; subst log'; done);
    pose proof (ConflictResolverFacts.resolve_conflict_members _ _ _ _ _ w ls (f_equal fst Hr))
      as (_ & _ & Hl & _); rewrite Hr in Hl; simpl in Hl; subst log';
    destruct (String.eqb w sp); simpl; rewrite length_app; simpl; lia.
Qed.

Lemma default_last_cons {A} (d x : A) (l : list A) :
  default d (last (x :: l)) = default x (last l).
Proof.
  assert (H : forall (y : A) (l : list A), last (y :: l) = Some (default y (last l))).
  { intros y l'. revert y. induction l' as [|z l' IH]; intros y; [done|].
    change (last (y :: z :: l')) with (last (z :: l')). by rewrite IH. }
  by rewrite H.
Qed.

Lemma process_all_log sm env changes log :
  (length (filter (fun x => x = s_conflicts_resolved)
             (flat_map processed_stats (process_all sm env changes log))) + length log
   = length (default log (last (map p_log (process_all sm env changes log)))))%nat.
Proof.
  revert log. induction changes as [|[rel ct] changes IH]; intros log; simpl; [done|].
  rewrite default_last_cons, <- IH, filter_app, length_app.
  unfold processed_stats. rewrite filter_app, length_app.
  pose proof (process_change_log sm env ct (path_join (source_dir sm) rel)
                (map (fun target_dir => path_join target_dir rel) (target_dirs sm)) log).
  destruct (p_exn _); simpl; lia.
Qed.

Lemma processed_stats_no_task_stat rs (m : StatName) :
  m = s_files_synced \/ m = s_files_deleted ->
  (forall r, r ∈ rs -> p_stats r = [] \/ p_stats r = [s_conflicts_resolved]) ->
  filter (fun x => x = m) (flat_map processed_stats rs) = [].
Proof.
  intros Hm. induction rs as [|r rs IH]; intros Hr; simpl; [done|].
  rewrite filter_app, IH by (intros; apply Hr; by apply elem_of_cons; right).
  unfold processed_stats. rewrite filter_app.
  destruct (Hr r) as [->| ->]; [by apply elem_of_cons; left| |];
    destruct (p_exn r); destruct Hm as [-> | ->]; done.
Qed.

Lemma process_all_stats sm env changes log r :
  r ∈ process_all sm env changes log -> p_stats r = [] \/ p_stats r = [s_conflicts_resolved].
Proof.
  revert log. induction changes as [|[rel ct] changes IH]; intros log Hin; simpl in Hin.
  - by apply elem_of_nil in Hin.
  - apply elem_of_cons in Hin as [->|Hin]; [apply process_change_stats|]. by eapply IH.
Qed.

Lemma run_task_counts env tasks :
  length (filter (fun x => x = s_files_synced) (flat_map (run_task env) tasks))
    = length (filter (fun t => copy_succeeded env t = true) tasks) /\
  length (filter (fun x => x = s_files_deleted) (flat_map (run_task env) tasks))
    = length (filter (fun t => delete_succeeded env t = true) tasks) /\
  filter (fun x => x = s_conflicts_resolved) (flat_map (run_task env) tasks) = [].
Proof.
  induction tasks as [|t tasks IH]; simpl; [done|].
  destruct IH as (IH1 & IH2 & IH3).
  rewrite !filter_app, !length_app, IH1, IH2, IH3, !(filter_cons _ t).
  destruct t as [src dst|pth]; simpl;
    [destruct (copy_result env src dst)|destruct (delete_result env pth)]; simpl; done.
Qed.

(** [sync_files] accounting: [files_synced] grows by the number of copy
    tasks of the session whose copy succeeded, [files_deleted] by the
    number of delete tasks whose deletion succeeded, and
    [conflicts_resolved] by the number of entries the session added to the
    resolution log; [start_time] and [end_time] are those of this call. *)
Theorem sync_files_counts (sm : SyncManager) (env : SessionEnv) (t0 t1 : Z)
    (changes : list (string * ChangeType)) (st : Stats) (log : list LogEntry) :
  let s := (sync_files sm env t0 t1 changes st log).1 in
  let st' := (sync_files sm env t0 t1 changes st log).2 in
  files_synced st' = (files_synced st + length (filter (fun t => copy_succeeded env t = true) (executed s)))%nat /\
  files_deleted st' = (files_deleted st + length (filter (fun t => delete_succeeded env t = true) (executed s)))%nat /\
  (conflicts_resolved st' + length log = conflicts_resolved st + length (session_log s))%nat /\
  start_time st' = Some t0 /\ end_time st' = Some t1.
Proof.
  unfold sync_files, submit_changes. simpl.
  set (rs := process_all sm env changes log).
  set (trace := flat_map processed_stats rs ++ flat_map (run_task env) (flat_map p_tasks rs)).
  set (st0 := mkStats (files_synced st) (files_deleted st) (conflicts_resolved st)
                (failed_operations st) (Some t0) (end_time st)).
  assert (Hst : forall r, r ∈ rs -> p_stats r = [] \/ p_stats r = [s_conflicts_resolved])
    by (intros r; apply process_all_stats).
  destruct (run_task_counts env (flat_map p_tasks rs)) as (R1 & R2 & R3).
  pose proof (apply_stats_counter trace s_files_synced st0) as A1.
  pose proof (apply_stats_counter trace s_files_deleted st0) as A2.
  pose proof (apply_stats_counter trace s_conflicts_resolved st0) as A3.
  pose proof (process_all_log sm env changes log) as L. fold rs in L.
  assert (E1 : length (filter (fun x => x = s_files_synced) trace)
               = length (filter (fun t => copy_succeeded env t = true) (flat_map p_tasks rs))).
  { unfold trace. rewrite filter_app, length_app.
    rewrite (processed_stats_no_task_stat rs s_files_synced) by first [by left | exact Hst].
    simpl. lia. }
  assert (E2 : length (filter (fun x => x = s_files_deleted) trace)
               = length (filter (fun t => delete_succeeded env t = true) (flat_map p_tasks rs))).
  { unfold trace. rewrite filter_app, length_app.
    rewrite (processed_stats_no_task_stat rs s_files_deleted) by first [by right | exact Hst].
    simpl. lia. }
  assert (E3 : length (filter (fun x => x = s_conflicts_resolved) trace)
               = length (filter (fun x => x = s_conflicts_resolved) (flat_map processed_stats rs))).
  { unfold trace. rewrite filter_app, length_app, R3. simpl. lia. }
  simpl in A1, A2, A3. split_and!; simpl; [lia|lia|lia| |done].
  by rewrite (proj1 (apply_stats_times trace st0)).
Qed.

(** A session whose changes are all deletions never calls the resolver:
    it submits one delete task per change and target directory, in order,
    leaves the resolution log unchanged, and changes no counter but
    [files_deleted]. *)
Theorem sync_files_deletions_only (sm : SyncManager) (env : SessionEnv) (t0 t1 : Z)
    (changes : list (string * ChangeType)) (st : Stats) (log : list LogEntry) :
  Forall (fun c => c.2 = deleted) changes ->
  let s := (sync_files sm env t0 t1 changes st log).1 in
  let st' := (sync_files sm env t0 t1 changes st log).2 in
  executed s = flat_map (fun c => map (fun d => DeleteTask (path_join d c.1)) (target_dirs sm)) changes /\
  session_log s = log /\
  files_synced st' = files_synced st /\
  conflicts_resolved st' = conflicts_resolved st /\
  failed_operations st' = failed_operations st.
Proof.
  intros Hdel.
  assert (Hrs : forall log0, process_all sm env changes log0
            = map (fun c => mkProcessed [] (map (fun d => DeleteTask (path_join d c.1)) (target_dirs sm))
                              log0 None) changes).
  { induction Hdel as [|[rel ct] changes Hc Hdel IH]; intros log0; simpl; [done|].
    simpl in Hc. subst ct. simpl. unfold _handle_file_deletion. rewrite map_map. f_equal. apply IH. }
  unfold sync_files, submit_changes. rewrite Hrs. simpl.
  set (tasks := flat_map p_tasks (map (fun c => mkProcessed []
                   (map (fun d => DeleteTask (path_join d c.1)) (target_dirs sm)) log None) changes)).
  assert (Htasks : tasks = flat_map (fun c => map (fun d => DeleteTask (path_join d c.1)) (target_dirs sm)) changes).
  { unfold tasks. clear. induction changes as [|c changes IH]; simpl; [done|]. by rewrite IH. }
  assert (Hstats : flat_map processed_stats (map (fun c => mkProcessed []
                     (map (fun d => DeleteTask (path_join d c.1)) (target_dirs sm)) log None) changes) = []).
  { clear. induction changes as [|c changes IH]; simpl; [done|]. exact IH. }
  assert (Hlog : default log (last (map p_log (map (fun c => mkProcessed []
                   (map (fun d => DeleteTask (path_join d c.1)) (target_dirs sm)) log None) changes))) = log).
  { clear. induction changes as [|c changes IH]; [done|].
    destruct changes as [|c' changes]; [done|]. exact IH. }
  rewrite Hstats, Hlog. fold tasks. simpl.
  assert (Hnod : forall t, t ∈ tasks -> exists p, t = DeleteTask p).
  { intros t Ht. rewrite Htasks in Ht. apply list_elem_of_In, in_flat_map in Ht as (c & _ & Ht).
    apply in_map_iff in Ht as (d & <- & _). by eexists. }
  set (st0 := mkStats (files_synced st) (files_deleted st) (conflicts_resolved st)
                (failed_operations st) (Some t0) (end_time st)).
  assert (Hno : forall m, m <> s_files_deleted ->
            filter (fun x => x = m) (flat_map (run_task env) tasks) = []).
  { intros m Hm. clear Htasks. induction tasks as [|t tasks IH]; simpl; [done|].
    rewrite filter_app, IH by (intros; apply Hnod; by apply elem_of_cons; right).
    destruct (Hnod t) as [p ->]; [by apply elem_of_cons; left|]. simpl.
    destruct (delete_result env p); simpl; [|done].
    rewrite app_nil_r, filter_cons_False; [done|]. congruence. }
  pose proof (apply_stats_counter (flat_map (run_task env) tasks) s_files_synced st0) as A1.
  pose proof (apply_stats_counter (flat_map (run_task env) tasks) s_conflicts_resolved st0) as A2.
  pose proof (apply_stats_counter (flat_map (run_task env) tasks) s_failed_operations st0) as A3.
  rewrite Hno in A1, A2, A3 by done. simpl in A1, A2, A3.
  split_and!; [done|done|simpl; lia|simpl; lia|simpl; lia].
Qed.

Lemma sync_files_deletions_only_witness :
  Forall (fun c => c.2 = deleted) [("f", deleted); ("g", deleted)] /\
  let s := (sync_files Scenarios.sm_ab Scenarios.env_io_ok 0 1 [("f", deleted); ("g", deleted)] initial_stats []).1 in
  let st' := (sync_files Scenarios.sm_ab Scenarios.env_io_ok 0 1 [("f", deleted); ("g", deleted)] initial_stats []).2 in
  executed s = flat_map (fun c => map (fun d => DeleteTask (path_join d c.1)) (target_dirs Scenarios.sm_ab))
                 [("f", deleted); ("g", deleted)] /\
  session_log s = [] /\
  files_synced st' = files_synced initial_stats /\
  conflicts_resolved st' = conflicts_resolved initial_stats /\
  failed_operations st' = failed_operations initial_stats.
Proof.
  assert (H : Forall (fun c => c.2 = deleted) [("f", deleted); ("g", deleted)])
    by (repeat constructor).
  split; [exact H|].
  exact (sync_files_deletions_only Scenarios.sm_ab Scenarios.env_io_ok 0 1
           [("f", deleted); ("g", deleted)] initial_stats [] H).
Defined.

(** [sync_stats] is never reset: over two successive [sync_files] calls on
    the same manager the report's counters add up both sessions'
    increments, while its times and duration are those of the last call. *)
Theorem summary_report_two_sessions (sm : SyncManager) (env1 env2 : SessionEnv)
    (t0 t1 t2 t3 : Z) (ch1 ch2 : list (string * ChangeType)) (st : Stats) (log : list LogEntry) :
  let r1 := sync_files sm env1 t0 t1 ch1 st log in
  let r2 := sync_files sm env2 t2 t3 ch2 r1.2 (session_log r1.1) in
  let rep := generate_summary_report sm r2.2 in
  duration_seconds rep = Some (t3 - t2) /\
  r_start_time rep = Some t2 /\ r_end_time rep = Some t3 /\
  r_files_synced rep = (files_synced st
     + length (filter (fun x => x = s_files_synced) (stat_trace r1.1 ++ stat_trace r2.1)))%nat /\
  r_files_deleted rep = (files_deleted st
     + length (filter (fun x => x = s_files_deleted) (stat_trace r1.1 ++ stat_trace r2.1)))%nat /\
  r_conflicts_resolved rep = (conflicts_resolved st
     + length (filter (fun x => x = s_conflicts_resolved) (stat_trace r1.1 ++ stat_trace r2.1)))%nat /\
  r_failed_operations rep = (failed_operations st
     + length (filter (fun x => x = s_failed_operations) (stat_trace r1.1 ++ stat_trace r2.1)))%nat.
Proof.
  cbv zeta.
  set (r1 := sync_files sm env1 t0 t1 ch1 st log).
  set (r2 := sync_files sm env2 t2 t3 ch2 r1.2 (session_log r1.1)).
  destruct (sync_files_times sm env2 t2 t3 ch2 r1.2 (session_log r1.1)) as [T1 T2].
  fold r2 in T1, T2.
  pose proof (fun m => sync_files_counter sm env1 t0 t1 ch1 st log m) as C1. fold r1 in C1.
  pose proof (fun m => sync_files_counter sm env2 t2 t3 ch2 r1.2 (session_log r1.1) m) as C2.
  fold r2 in C2.
  unfold generate_summary_report.
  cbn [duration_seconds r_start_time r_end_time r_files_synced r_files_deleted
       r_conflicts_resolved r_failed_operations].
  rewrite T1, T2, !filter_app, !length_app.
  pose proof (C1 s_files_synced). pose proof (C1 s_files_deleted).
  pose proof (C1 s_conflicts_resolved). pose proof (C1 s_failed_operations).
  pose proof (C2 s_files_synced). pose proof (C2 s_files_deleted).
  pose proof (C2 s_conflicts_resolved). pose proof (C2 s_failed_operations).
  simpl in *. split_and!; [done|done|done|lia|lia|lia|lia].
Qed.

End SyncManagerFacts.
